(** * words-hk-parse: a shallow embedding of the entry parser and the
      Cantonese reading aligner

    The development follows the TypeScript sources:
    - [src/utils/text.ts] and [src/utils/cantonese.ts]: the character
      classifier, the tokenizer [splitString] and the aligner
      [parseCantoneseReadings];
    - [src/constants.ts]: the language table [LANGUAGES_DATA];
    - [src/parser/entryParser.ts]: [parseEntry], [parseHeadwords],
      [parseTags], [parseSense] and [parseLanguageData].

    A JavaScript string is a sequence of UTF-16 code units; it is modelled
    as a list of [N].  A value that may be [undefined] is an [option].
    A function that may throw returns a [result]. *)

From stdpp Require Import gmap list strings.
From Stdlib Require Import NArith ZArith Lia.
From Stdlib Require DecimalString DecimalN DecimalFacts.

Local Open Scope N_scope.

(* ===================================================================== *)
(** ** JavaScript strings *)
(* ===================================================================== *)

Module Js.

(** A string is its list of UTF-16 code units. *)
Abbreviation jsstring := (list N).

(** An ASCII literal as a JavaScript string. *)
Definition str (s : string) : jsstring :=
  map Ascii.N_of_ascii (String.list_ascii_of_string s).
Arguments str s%_string.

(** [!!s] for a string: the empty string is the only falsy one. *)
Definition nonEmpty (s : jsstring) : bool :=
  match s with [] => false | _ :: _ => true end.

(** [!!v] for a value that is a string or [undefined]. *)
Definition truthy (v : option jsstring) : bool :=
  match v with Some s => nonEmpty s | None => false end.

(** [String(v)]: the conversion a regular expression's [test] and a
    template literal apply to their argument. *)
Definition toStr (v : option jsstring) : jsstring :=
  match v with Some s => s | None => str "undefined" end.

Definition eqStr (a b : jsstring) : bool := bool_decide (a = b).

(** [arr.includes(v)] on an array of strings. *)
Definition includesStr (arr : list jsstring) (v : option jsstring) : bool :=
  match v with
  | Some s => existsb (eqStr s) arr
  | None => false
  end.

(** *** UTF-16 *)

Definition isHighSurrogate (c : N) : bool := (0xD800 <=? c) && (c <=? 0xDBFF).
Definition isLowSurrogate (c : N) : bool := (0xDC00 <=? c) && (c <=? 0xDFFF).

(** The string iterator ([for (const char of input)]): one string per code
    point, a surrogate pair giving a string of two code units. *)
Fixpoint iterate (s : jsstring) : list jsstring :=
  match s with
  | [] => []
  | h :: t =>
      match t with
      | l :: t' =>
          if isHighSurrogate h && isLowSurrogate l
          then [h; l] :: iterate t'
          else [h] :: iterate t
      | [] => [[h]]
      end
  end.

(** The code points of a string, for the astral mode of XRegExp. *)
Definition codePoint (char : jsstring) : N :=
  match char with
  | [h; l] => 0x10000 + (h - 0xD800) * 0x400 + (l - 0xDC00)
  | [c] => c
  | _ => 0
  end.

Definition codePoints (s : jsstring) : list N := map codePoint (iterate s).

(** *** White space and line terminators *)

(** ECMAScript [LineTerminator]: LF, CR, LS, PS. *)
Definition isLineTerminator (c : N) : bool :=
  (c =? 0x0A) || (c =? 0x0D) || (c =? 0x2028) || (c =? 0x2029).

(** What [String.prototype.trim] removes: [WhiteSpace] and
    [LineTerminator]. *)
Definition isWhiteSpace (c : N) : bool :=
  (c =? 0x09) || (c =? 0x0B) || (c =? 0x0C) || (c =? 0x20) || (c =? 0xA0)
  || (c =? 0x1680) || ((0x2000 <=? c) && (c <=? 0x200A))
  || (c =? 0x202F) || (c =? 0x205F) || (c =? 0x3000) || (c =? 0xFEFF)
  || isLineTerminator c.

Fixpoint trimStart (s : jsstring) : jsstring :=
  match s with
  | [] => []
  | c :: s' => if isWhiteSpace c then trimStart s' else s
  end.

Definition trimEnd (s : jsstring) : jsstring := rev (trimStart (rev s)).

(** [s.trim()] *)
Definition trim (s : jsstring) : jsstring := trimEnd (trimStart s).

(** *** Searching and cutting *)

(** [s.startsWith(p)] *)
Fixpoint startsWith (p s : jsstring) : bool :=
  match p, s with
  | [], _ => true
  | a :: p', b :: s' => (a =? b) && startsWith p' s'
  | _ :: _, [] => false
  end.

(** [s.includes(p)] *)
Fixpoint includes (p s : jsstring) : bool :=
  startsWith p s || match s with [] => false | _ :: s' => includes p s' end.

(** [s.indexOf(p)]: the first position of [p], or -1. *)
Fixpoint indexOf (p s : jsstring) : Z :=
  if startsWith p s then 0%Z
  else match s with
       | [] => (-1)%Z
       | _ :: s' => let k := indexOf p s' in if (k <? 0)%Z then k else (k + 1)%Z
       end.

(** The clamping of [slice]: a negative index counts from the end. *)
Definition relativeIndex (len : nat) (k : Z) : nat :=
  if (k <? 0)%Z then Z.to_nat (Z.max (Z.of_nat len + k) 0)
  else Z.to_nat (Z.min k (Z.of_nat len)).

(** [s.slice(from, to)] and [s.slice(from)] *)
Definition slice (s : jsstring) (from to : Z) : jsstring :=
  let a := relativeIndex (length s) from in
  let b := relativeIndex (length s) to in
  take (b - a)%nat (drop a s).

Definition sliceFrom (s : jsstring) (from : Z) : jsstring :=
  drop (relativeIndex (length s) from) s.

(** [s.replace(p, '')] for a string pattern [p]: the first occurrence of
    [p] is cut out.  Every call in the sources has the empty string as
    replacement. *)
Fixpoint replaceFirst (p s : jsstring) : jsstring :=
  if startsWith p s then drop (length p) s
  else match s with
       | [] => []
       | c :: s' => c :: replaceFirst p s'
       end.

(** The loop of [String.prototype.split]: [matchAt prev s] says whether the
    separator matches at the current position, [s] being the rest of the
    input and [prev] the code unit before it; a match has [len] code units
    ([len > 0] at every call site), of which [skip] are still to be passed
    over; [cur] is the piece under construction, reversed. *)
Fixpoint splitLoop (matchAt : option N → jsstring → bool) (len : nat)
    (prev : option N) (skip : nat) (cur : jsstring) (s : jsstring)
    : list jsstring :=
  match s with
  | [] => [rev cur]
  | c :: s' =>
      match skip with
      | S k => splitLoop matchAt len (Some c) k cur s'
      | O =>
          if matchAt prev s
          then rev cur :: splitLoop matchAt len (Some c) (pred len) [] s'
          else splitLoop matchAt len (Some c) 0 (c :: cur) s'
      end
  end.

(** [s.split(sep)] for a non-empty string separator. *)
Definition split (sep s : jsstring) : list jsstring :=
  splitLoop (λ _ rest, startsWith sep rest) (length sep) None 0 [] s.

(** The multiline anchors: [^] holds at the start of the input and after a
    line terminator, [$] at the end of the input and before a line
    terminator. *)
Definition atLineStart (prev : option N) : bool :=
  match prev with None => true | Some c => isLineTerminator c end.

Definition atLineEnd (rest : jsstring) : bool :=
  match rest with [] => true | c :: _ => isLineTerminator c end.

Definition matchFullLine (pat : jsstring) (prev : option N) (rest : jsstring)
    : bool :=
  atLineStart prev && startsWith pat rest && atLineEnd (drop (length pat) rest).

(** [s.split(/^pat$/gm)] for a literal, non-empty [pat] without line
    terminators. *)
Definition splitFullLine (pat s : jsstring) : list jsstring :=
  splitLoop (matchFullLine pat) (length pat) None 0 [] s.

(** The line feed, ['\n']. *)
Definition LF : jsstring := [0x0A].

(** The lines of a string in the sense of the multiline anchors: the
    string is cut at every line terminator. *)
Fixpoint linesOf (s : jsstring) : list jsstring :=
  match s with
  | [] => [[]]
  | c :: s' =>
      let rest := linesOf s' in
      if isLineTerminator c then [] :: rest
      else (c :: hd [] rest) :: tl rest
  end.

Definition firstLine (s : jsstring) : jsstring := hd [] (linesOf s).
Definition restLines (s : jsstring) : list jsstring := tl (linesOf s).

(** How many of the lines [ls] are exactly [pat]; how many lines of [s]
    are. *)
Definition countEqual (pat : jsstring) (ls : list jsstring) : nat :=
  length (List.filter (eqStr pat) ls).

Definition countLines (pat s : jsstring) : nat := countEqual pat (linesOf s).

(** [arr.join(sep)] *)
Fixpoint join (sep : jsstring) (arr : list jsstring) : jsstring :=
  match arr with
  | [] => []
  | [x] => x
  | x :: rest => x ++ sep ++ join sep rest
  end.

End Js.

Export Js.

(* ===================================================================== *)
(** ** Exceptions *)
(* ===================================================================== *)

(** The exceptions the parsers raise.  [Error_] is the plain [Error] of
    [cantonese.ts], [ParseError] the class of [entryParser.ts], and
    [TypeError] what the runtime raises on a call of a missing method. *)
Inductive message :=
| UnexpectedTextReading (text reading : option jsstring) (i : nat)
| UnexpectedReading (reading : option jsstring) (readingIndex : nat)
| InvalidId (id : jsstring)
| InvalidHeadword (headword : jsstring)
| NoPosMarker (line : option jsstring)
| EntryEmpty
| NoTagsFound (firstLine : jsstring)
| InvalidLanguage (matchedLang : jsstring)
| NotAFunction
| UndefinedReceiver.

Inductive exn :=
| Error_ (m : message)
| ParseError (m : message)
| TypeError (m : message).

Inductive result (A : Type) :=
| Ok (a : A)
| Throw (e : exn).
Arguments Ok {A} a.
Arguments Throw {A} e.

#[global] Instance result_ret : MRet result := @Ok.
#[global] Instance result_bind : MBind result := λ A B k r,
  match r with Ok a => k a | Throw e => Throw e end.

(** [arr.map(f)] when [f] may throw: the first exception ends the loop. *)
Fixpoint mapResult {A B} (f : A → result B) (l : list A) : result (list B) :=
  match l with
  | [] => Ok []
  | a :: l' => b ← f a; bs ← mapResult f l'; Ok (b :: bs)
  end.

Definition isParseError {A} (r : result A) : bool :=
  match r with Throw (ParseError _) => true | _ => false end.

Definition throws {A} (r : result A) : bool :=
  match r with Throw _ => true | Ok _ => false end.

(* ===================================================================== *)
(** ** [src/utils/text.ts]: the text classifier *)
(* ===================================================================== *)

Module Text.

(** [punctuations], in the order of the source (with its repeated
    entries): the full-width and the ASCII comma, full stop, question mark,
    exclamation mark, semicolon and colon, the ideographic comma, and the
    midline ellipsis. *)
Definition punctuations : list jsstring :=
  [ [0xFF0C]; str ","; [0x3002]; str "."; [0xFF1F]; str "?"; [0xFF01];
    str "!"; [0xFF1B]; str ";"; [0xFF1A]; str ":"; [0x3001]; str ",";
    [0xFF0C]; [0x22EF] ].

(** The Unicode blocks the pattern of [isHanzi] names: CJK Unified
    Ideographs and its extensions A to E. *)
Definition inCJKBlocks (cp : N) : bool :=
  ((0x4E00 <=? cp) && (cp <=? 0x9FFF))
  || ((0x3400 <=? cp) && (cp <=? 0x4DBF))
  || ((0x20000 <=? cp) && (cp <=? 0x2A6DF))
  || ((0x2A700 <=? cp) && (cp <=? 0x2B73F))
  || ((0x2B740 <=? cp) && (cp <=? 0x2B81F))
  || ((0x2B820 <=? cp) && (cp <=? 0x2CEAF)).

(** [/[a-zA-Z]/] and [/[a-zA-Z0-9]/] on one code unit. *)
Definition isAsciiLetter (c : N) : bool :=
  ((0x41 <=? c) && (c <=? 0x5A)) || ((0x61 <=? c) && (c <=? 0x7A)).
Definition isAsciiDigit (c : N) : bool := (0x30 <=? c) && (c <=? 0x39).
Definition isAsciiAlnum (c : N) : bool := isAsciiLetter c || isAsciiDigit c.

(** [re.test(s)] for an unanchored character class: some code unit of the
    string is in the class. *)
Definition testLetter (s : jsstring) : bool := existsb isAsciiLetter s.
Definition testAlnum (s : jsstring) : bool := existsb isAsciiAlnum s.

(** The three classifiers take what the aligner passes them: a token or
    [undefined], which [test] turns into the string ["undefined"]. *)
Definition isHanzi (text : option jsstring) : bool :=
  existsb inCJKBlocks (codePoints (toStr text)).

Definition isJyuutping (text : option jsstring) : bool :=
  testAlnum (toStr text).

Definition isPunctuation (text : option jsstring) : bool :=
  includesStr punctuations text.

(** [isStringSentence]: the last code unit of the text is a punctuation
    mark ([text[text.length - 1]] is [undefined] on the empty string). *)
Definition isStringSentence (text : jsstring) : bool :=
  isPunctuation ((λ c, [c]) <$> last text).

End Text.

(* ===================================================================== *)
(** ** [src/utils/cantonese.ts]: tokenizer and reading aligner *)
(* ===================================================================== *)

Module Cantonese.
Import Text.

Record TextReadingPair := { text : jsstring; reading : jsstring }.

(** One turn of the loop of [splitString] over the state
    [(resultArray, current)]. *)
Definition splitStep (st : list jsstring * jsstring) (char : jsstring)
    : list jsstring * jsstring :=
  let '(resultArray, current) := st in
  if testAlnum char then
    let isAlphabetical := testLetter char in
    let '(resultArray, current) :=
      if (0 <? length current)%nat then
        let isPreviousAlphabetical :=
          testLetter (toStr ((λ c, [c]) <$> last current)) in
        if isAlphabetical && negb isPreviousAlphabetical
        then (resultArray ++ [current], [])
        else (resultArray, current)
      else (resultArray, current) in
    (resultArray, current ++ char)
  else if includesStr punctuations (Some char) then
    let '(resultArray, current) :=
      if nonEmpty current then (resultArray ++ [current], [])
      else (resultArray, current) in
    (resultArray ++ [char], current)
  else
    let '(resultArray, current) :=
      if nonEmpty current then (resultArray ++ [current], [])
      else (resultArray, current) in
    (resultArray ++ [char], current).

(** After the loop: the open run is pushed, every token is trimmed and
    the empty ones are dropped. *)
Definition splitFinish (st : list jsstring * jsstring) : list jsstring :=
  let '(resultArray, current) := st in
  let resultArray :=
    if nonEmpty current then resultArray ++ [current] else resultArray in
  List.filter nonEmpty (map trim resultArray).

Definition splitString (input : jsstring) : list jsstring :=
  splitFinish (foldl splitStep ([], []) (iterate input)).

(** A digit directly followed by a letter somewhere in the string. *)
Fixpoint digitThenLetter (s : jsstring) : bool :=
  match s with
  | [] => false
  | a :: t =>
      match t with
      | [] => false
      | b :: _ => (isAsciiDigit a && isAsciiLetter b) || digitThenLetter t
      end
  end.

(** The pair pushed for a text token that gets no reading. *)
Definition emptyPair (t : jsstring) : TextReadingPair :=
  {| text := t; reading := [] |}.

(** [isJyuutping] on a token. *)
Definition jyutpingToken (r : jsstring) : bool := isJyuutping (Some r).

(** The non-empty [reading] fields of a result, in order. *)
Definition readingFields (pairs : list TextReadingPair) : list jsstring :=
  List.filter nonEmpty (map reading pairs).

(** The state of the alignment loop. *)
Record cursor := {
  resultArray : list TextReadingPair;
  readingIndex : nat;
  textIndex : nat
}.

(** The start of the alignment loop. *)
Definition alignStart : cursor :=
  {| resultArray := []; readingIndex := 0; textIndex := 0 |}.

(** The body of the loop at index [i].  Where a pair is pushed the text
    (and, in the first branch, the reading) is truthy, hence a string. *)
Definition alignStep (textArray readingsArray : list jsstring) (i : nat)
    (st : cursor) : result cursor :=
  let text := textArray !! textIndex st in
  let reading := readingsArray !! readingIndex st in
  let isTextHanzi := isHanzi text in
  let isTextAlphanumeric := isJyuutping text in
  let isTextPunctuation := isPunctuation text in
  let isReadingJyutping := isJyuutping reading in
  let isReadingPunctuation := isPunctuation reading in
  if truthy text && truthy reading
     && ((isTextHanzi && isReadingJyutping)
         || (isTextAlphanumeric && isReadingJyutping))
  then
    Ok {| resultArray := resultArray st ++
            [{| text := default [] text; reading := default [] reading |}];
          readingIndex := S (readingIndex st);
          textIndex := S (textIndex st) |}
  else if truthy text
     && ((isTextPunctuation && isReadingJyutping)
         || (truthy text && bool_decide (reading = None))
         || (negb isTextAlphanumeric && negb isTextHanzi && isReadingJyutping))
  then
    Ok {| resultArray := resultArray st ++
            [{| text := default [] text; reading := [] |}];
          readingIndex := readingIndex st;
          textIndex := S (textIndex st) |}
  else if truthy text && truthy reading
     && ((isTextPunctuation && isReadingPunctuation)
         || (negb isTextAlphanumeric && negb isTextHanzi
             && negb isReadingJyutping))
  then
    Ok {| resultArray := resultArray st ++
            [{| text := default [] text; reading := [] |}];
          readingIndex := S (readingIndex st);
          textIndex := S (textIndex st) |}
  else Throw (Error_ (UnexpectedTextReading text reading i)).

(** [for (let i = ...; i < bound; i++)], with [n] turns left. *)
Fixpoint alignLoop (textArray readingsArray : list jsstring) (n i : nat)
    (st : cursor) : result cursor :=
  match n with
  | O => Ok st
  | S n' =>
      st' ← alignStep textArray readingsArray i st;
      alignLoop textArray readingsArray n' (S i) st'
  end.

(** The aligner on the two token arrays. *)
Definition alignTokens (textArray readingsArray : list jsstring)
    : result (list TextReadingPair) :=
  st ← alignLoop textArray readingsArray
         (length textArray `max` length readingsArray) 0 alignStart;
  if (readingIndex st <? length readingsArray)%nat
  then Throw (Error_ (UnexpectedReading
                        (readingsArray !! readingIndex st) (readingIndex st)))
  else Ok (resultArray st).

Definition parseCantoneseReadings (rawText readings : jsstring)
    : result (list TextReadingPair) :=
  let textArray := splitString rawText in
  let readingsArray := splitString readings in
  alignTokens textArray readingsArray.

(** The invariant of the alignment loop at index [i]: one pair per passed
    text token, and the readings emitted so far are the alphanumeric ones
    among the passed reading tokens. *)
Definition alignInv (ts rs : list jsstring) (i : nat) (st : cursor) : Prop :=
  textIndex st = i ∧ length (resultArray st) = i ∧ (i ≤ length ts)%nat
  ∧ (readingIndex st ≤ length rs)%nat
  ∧ readingFields (resultArray st)
    = List.filter jyutpingToken (take (readingIndex st) rs).

End Cantonese.

(* ===================================================================== *)
(** ** [src/types.ts] and [src/constants.ts] *)
(* ===================================================================== *)

(** The values of type [number] that [parseInt] returns, [NaN] apart: a
    double whose value is an integer, minus zero, and the two
    infinities. *)
Module Number.

Inductive t :=
| Int (z : Z)
| NegZero
| Infinity (negative : bool).

(** The significand of a double has 53 bits.  A positive integer with more
    bits is rounded to the nearest integer that has at most 53 significant
    bits, a tie going to the even significand. *)
Definition roundToDouble (n : Z) : Z :=
  let excess := (Z.log2 n + 1 - 53)%Z in
  if (excess <=? 0)%Z then n
  else
    let q := Z.shiftr n excess in
    let r := Z.land n (Z.ones excess) in
    let half := Z.shiftl 1 (excess - 1) in
    let q := if (half <? r)%Z || ((r =? half)%Z && Z.odd q)
             then (q + 1)%Z else q in
    Z.shiftl q excess.

(** The Number value of [sign * mathInt], for [mathInt] not negative:
    minus zero for a negative sign on zero, an infinity from 2^1024 on. *)
Definition ofInteger (sign mathInt : Z) : t :=
  if (mathInt =? 0)%Z then (if (sign <? 0)%Z then NegZero else Int 0)
  else
    let r := roundToDouble mathInt in
    if (2 ^ 1024 <=? r)%Z then Infinity (sign <? 0)%Z
    else Int (sign * r).

End Number.

Module CsvRecord.
Record t := {
  id : jsstring;
  headword : jsstring;
  entry : jsstring;
  variants : jsstring;
  warning : jsstring;
  public : jsstring
}.
End CsvRecord.

Module Headword.
Record t := { text : jsstring; readings : list jsstring }.
End Headword.

Module Tag.
Record t := { name : jsstring; value : jsstring }.
End Tag.

(** [LanguageData]: the own properties of the object, from language code to
    segments. *)
Abbreviation LanguageData := (gmap jsstring (list jsstring)).

Module Sense.
Record t := { explanation : LanguageData; egs : list LanguageData }.
End Sense.

Module DictionaryEntry.
Record t := {
  id : Number.t;
  headwords : list Headword.t;
  tags : list Tag.t;
  senses : list Sense.t
}.
End DictionaryEntry.

Module LanguageInfo.
Record t := { name : jsstring; shortName : jsstring; langCode : jsstring }.
End LanguageInfo.

Module Constants.

(** The fourteen codes of [LanguageArray]; the last is the classifier
    marker, two ideographs. *)
Definition LanguageArray : list jsstring :=
  [ str "yue"; str "eng"; str "zho"; str "jpn"; str "kor"; str "vie";
    str "lzh"; str "por"; str "deu"; str "fra"; str "mnc"; str "lat";
    str "tib"; [0x91CF; 0x8A5E] ].

(** [LANGUAGES_DATA], the own properties of the object literal. *)
Definition LANGUAGES_DATA : gmap jsstring LanguageInfo.t :=
  let info name shortName langCode :=
    {| LanguageInfo.name := name; LanguageInfo.shortName := shortName;
       LanguageInfo.langCode := langCode |} in
  list_to_map
    [ (str "yue", info [0x5EE3; 0x6771; 0x8A71] [0x7CB5] (str "yue"));
      (str "eng", info [0x82F1; 0x6587] [0x82F1] (str "en"));
      (str "zho", info [0x4E2D; 0x6587] [0x4E2D] (str "zh-Hant"));
      (str "jpn", info [0x65E5; 0x6587] [0x65E5] (str "ja"));
      (str "kor", info [0x97D3; 0x6587] [0x97D3] (str "ko"));
      (str "vie", info [0x8D8A; 0x5357; 0x6587] [0x8D8A] (str "vi"));
      (str "lzh", info [0x6587; 0x8A00; 0x6587] [0x6587] (str "zh-Hant"));
      (str "por", info [0x8461; 0x8404; 0x7259; 0x6587] [0x8461] (str "pt"));
      (str "deu", info [0x5FB7; 0x6587] [0x5FB7] (str "de"));
      (str "fra", info [0x6CD5; 0x6587] [0x6CD5] (str "fr"));
      (str "mnc", info [0x6EFF; 0x6587] [0x6EFF] (str "mnc"));
      (str "lat", info [0x62C9; 0x4E01; 0x6587] [0x62C9] (str "la"));
      (str "tib", info [0x85CF; 0x6587] [0x85CF] (str "bo"));
      ([0x91CF; 0x8A5E], info [0x91CF; 0x8A5E] [0x91CF; 0x8A5E] []) ].

End Constants.

(* ===================================================================== *)
(** ** Property lookup on plain objects *)
(* ===================================================================== *)

Module Object.

(** The string-keyed properties of [Object.prototype], which every object
    literal inherits.  All of them are truthy: eleven functions and the
    [__proto__] accessor, which yields [Object.prototype] itself. *)
Definition prototypeKeys : list jsstring :=
  [ str "constructor"; str "hasOwnProperty"; str "isPrototypeOf";
    str "propertyIsEnumerable"; str "toLocaleString"; str "toString";
    str "valueOf"; str "__proto__"; str "__defineGetter__";
    str "__defineSetter__"; str "__lookupGetter__"; str "__lookupSetter__" ].

(** What [obj[key]] finds: an own property, a property inherited from
    [Object.prototype], or nothing ([undefined]). *)
Inductive property (V : Type) :=
| Own (v : V)
| Inherited
| Missing.
Arguments Own {V} v.
Arguments Inherited {V}.
Arguments Missing {V}.

Definition get {V} (obj : gmap jsstring V) (key : jsstring) : property V :=
  match obj !! key with
  | Some v => Own v
  | None => if existsb (eqStr key) prototypeKeys then Inherited else Missing
  end.

(** [!!obj[key]] where the own properties hold objects or arrays. *)
Definition truthyAt {V} (obj : gmap jsstring V) (key : jsstring) : bool :=
  match get obj key with Missing => false | _ => true end.

End Object.

(* ===================================================================== *)
(** ** [src/parser/entryParser.ts] *)
(* ===================================================================== *)

Module EntryParser.
Import Text Constants.

(** *** [parseInt] *)

(** The value of a code unit as a digit: [0-9], then [a-z] and [A-Z] from
    ten on. *)
Definition digitValue (c : N) : option Z :=
  if isAsciiDigit c then Some (Z.of_N c - 0x30)%Z
  else if (0x61 <=? c) && (c <=? 0x7A) then Some (Z.of_N c - 0x61 + 10)%Z
  else if (0x41 <=? c) && (c <=? 0x5A) then Some (Z.of_N c - 0x41 + 10)%Z
  else None.

Definition radixDigit (R : Z) (c : N) : option Z :=
  match digitValue c with
  | Some d => if (d <? R)%Z then Some d else None
  | None => None
  end.

(** The longest prefix of radix-[R] digits. *)
Fixpoint digitsPrefix (R : Z) (s : jsstring) : list Z :=
  match s with
  | [] => []
  | c :: s' =>
      match radixDigit R c with
      | Some d => d :: digitsPrefix R s'
      | None => []
      end
  end.

Definition mathInt (R : Z) (ds : list Z) : Z :=
  foldl (λ acc d, acc * R + d)%Z 0%Z ds.

(** [parseInt(string)] without a radix; [None] is [NaN].  The digits read
    denote a mathematical integer, and the result is the Number value of
    that integer with its sign: the nearest double, computed from all the
    digits.  (The language also lets an implementation put zeros for the
    digits after the twentieth before it rounds; that can change the
    result only for numerals of more than twenty digits.) *)
Definition parseInt (string : jsstring) : option Number.t :=
  let s := trimStart string in
  let sign := if startsWith (str "-") s then (-1)%Z else 1%Z in
  let s :=
    if startsWith (str "+") s || startsWith (str "-") s then drop 1 s else s in
  let '(R, s) :=
    if startsWith (str "0x") s || startsWith (str "0X") s
    then (16%Z, drop 2 s) else (10%Z, s) in
  let digits := digitsPrefix R s in
  match digits with
  | [] => None
  | _ :: _ => Some (Number.ofInteger sign (mathInt R digits))
  end.

(** *** [parseHeadwords] *)

(** [!!arr] for an array: an array is an object, and truthy even when
    empty. *)
Definition truthyArray {A} (arr : list A) : bool := true.

(** The callback of [parseHeadwords]: [text] is the first element of the
    destructured array, [readings] the rest element. *)
Definition parseHeadword (headword : jsstring) : result Headword.t :=
  let parts := split (str ":") headword in
  let text := parts !! 0%nat in
  let readings := tail parts in
  if negb (truthy text) || negb (truthyArray readings)
  then Throw (ParseError (InvalidHeadword headword))
  else Ok {| Headword.text := default [] text;
             Headword.readings := readings |}.

Definition parseHeadwords (headwordString : jsstring)
    : result (list Headword.t) :=
  mapResult parseHeadword (split (str ",") headwordString).

(** *** [parseTags] *)

(** [tag.replace(/[()]/g, '')] *)
Definition isParen (c : N) : bool := (c =? 0x28) || (c =? 0x29).
Definition stripParens (tag : jsstring) : jsstring :=
  List.filter (λ c, negb (isParen c)) tag.

(** The callback of the [map] in [parseTags]. *)
Definition parseTag (tag : jsstring) : Tag.t :=
  let tag := stripParens tag in
  let colonIndex := indexOf (str ":") tag in
  let name := trim (slice tag 0 colonIndex) in
  let value := trim (sliceFrom tag (colonIndex + 1)) in
  {| Tag.name := name; Tag.value := value |}.

(** The tag of a fragment in the words of the specification: the
    parentheses are stripped, the fragment is cut at its first colon into
    name and value, and both are trimmed. *)
Fixpoint beforeFirst (c : N) (s : jsstring) : jsstring :=
  match s with
  | [] => []
  | x :: s' => if x =? c then [] else x :: beforeFirst c s'
  end.

Fixpoint afterFirst (c : N) (s : jsstring) : jsstring :=
  match s with
  | [] => []
  | x :: s' => if x =? c then s' else afterFirst c s'
  end.

Definition tagOfFragment_spec (fragment : jsstring) : Tag.t :=
  let stripped := stripParens fragment in
  {| Tag.name := trim (beforeFirst 0x3A stripped);
     Tag.value := trim (afterFirst 0x3A stripped) |}.

(** [parseTags] removes the first line from the array it is given; the
    model returns the array as the call leaves it, next to the tags. *)
Definition parseTags (entryLines : list jsstring)
    : result (list Tag.t * list jsstring) :=
  match entryLines !! 0%nat with
  | None => Throw (TypeError UndefinedReceiver)
  | Some line0 =>
      if negb (startsWith (str "(pos:") line0)
      then Throw (ParseError (NoPosMarker (entryLines !! 0%nat)))
      else
        let firstLine := head entryLines in
        let entryLines := tail entryLines in
        if negb (truthy firstLine) then Throw (ParseError EntryEmpty)
        else
          let tags := map parseTag (split (str ")(") (default [] firstLine)) in
          if (length tags =? 0)%nat
          then Throw (ParseError (NoTagsFound (default [] firstLine)))
          else Ok (tags, entryLines)
  end.

(** *** [parseLanguageData] *)

(** The variables the closure [addCurrentLangData] shares with the loop. *)
Record langState := {
  languageData : LanguageData;
  currentLang : jsstring;
  currentLangData : jsstring
}.

Definition addCurrentLangData (st : langState) : result langState :=
  if negb (nonEmpty (currentLang st)) then Ok st
  else if negb (nonEmpty (currentLangData st)) then Ok st
  else
    let languageData :=
      if negb (Object.truthyAt (languageData st) (currentLang st))
      then <[currentLang st := []]> (languageData st)
      else languageData st in
    match Object.get languageData (currentLang st) with
    | Object.Own arr =>
        Ok {| languageData :=
                <[currentLang st := arr ++ [trim (currentLangData st)]]>
                  languageData;
              currentLang := [];
              currentLangData := [] |}
    | _ => Throw (TypeError NotAFunction)
    end.

(** The body of the loop over the lines. *)
Definition languageLine (st : langState) (line : jsstring)
    : result langState :=
  let matchedLang := toStr (split (str ":") line !! 0%nat) in
  if negb (includes (str ":") line) then
    Ok {| languageData := languageData st;
          currentLang := currentLang st;
          currentLangData := currentLangData st ++ LF ++ trim line |}
  else if negb (Object.truthyAt LANGUAGES_DATA matchedLang) then
    Throw (ParseError (InvalidLanguage matchedLang))
  else
    st ← addCurrentLangData st;
    let currentLang := matchedLang in
    Ok {| languageData := languageData st;
          currentLang := currentLang;
          currentLangData :=
            trim (replaceFirst (currentLang ++ str ":") line) |}.

Fixpoint languageLines (st : langState) (lines : list jsstring)
    : result langState :=
  match lines with
  | [] => Ok st
  | line :: lines' => st' ← languageLine st line; languageLines st' lines'
  end.

(** The start of the loop of [parseLanguageData]. *)
Definition langStart : langState :=
  {| languageData := ∅; currentLang := []; currentLangData := [] |}.

Definition parseLanguageData (text : jsstring) : result LanguageData :=
  let lines := split LF text in
  st ← languageLines langStart lines;
  st ← addCurrentLangData st;
  Ok (languageData st).

(** Every key has at least one segment, and no segment has white space at
    either end. *)
Definition segmentsTrimmed (m : LanguageData) : Prop :=
  ∀ k segs, m !! k = Some segs → segs ≠ [] ∧ Forall (λ s, trim s = s) segs.

(** *** [parseSense] *)

Definition parseSense (entryText : jsstring) : result Sense.t :=
  let entryText := replaceFirst (str "<explanation>" ++ LF) entryText in
  match splitFullLine (str "<eg>") entryText with
  | [] => Throw (TypeError UndefinedReceiver)
  | explanationText :: examplesTexts =>
      explanation ← parseLanguageData explanationText;
      egs ← mapResult parseLanguageData examplesTexts;
      Ok {| Sense.explanation := explanation; Sense.egs := egs |}
  end.

(** *** [parseEntry] *)

Definition parseEntry (entry : CsvRecord.t) : result DictionaryEntry.t :=
  match parseInt (CsvRecord.id entry) with
  | None => Throw (ParseError (InvalidId (CsvRecord.id entry)))
  | Some id =>
      headwords ← parseHeadwords (CsvRecord.headword entry);
      let entryLines := split LF (CsvRecord.entry entry) in
      '(tags, entryLines) ← parseTags entryLines;
      let explanationsText := join LF entryLines in
      let explanationsTexts :=
        map (λ text, text) (splitFullLine (str "----") explanationsText) in
      senses ← mapResult parseSense explanationsTexts;
      Ok {| DictionaryEntry.id := id;
            DictionaryEntry.headwords := headwords;
            DictionaryEntry.tags := tags;
            DictionaryEntry.senses := senses |}
  end.

End EntryParser.

(* ===================================================================== *)
(** ** A sample row *)
(* ===================================================================== *)

Module Sample.
Import EntryParser.

(** The row used in the examples: one headword, the tag line, and a
    body of two senses, the first with one example. *)
Definition sampleRow (id : jsstring) : CsvRecord.t :=
  {| CsvRecord.id := id;
     CsvRecord.headword := [0x98F2; 0x8336] ++ str ":jam2 caa4";
     CsvRecord.entry :=
       join LF [ str "(pos:" ++ [0x52D5; 0x8A5E] ++ str ")";
                 str "<explanation>"; str "yue:" ++ [0x98F2; 0x8336];
                 str "eng:to have dim sum";
                 str "<eg>"; str "yue:" ++ [0x53BB; 0x98F2; 0x8336];
                 str "eng:go for dim sum";
                 str "----";
                 str "<explanation>"; str "eng:to drink tea" ];
     CsvRecord.variants := []; CsvRecord.warning := [];
     CsvRecord.public := [] |}.

(** What [parseEntry] makes of [sampleRow], up to the id. *)
Definition sampleEntryOf (id : Number.t) : DictionaryEntry.t :=
  {| DictionaryEntry.id := id;
     DictionaryEntry.headwords :=
       [ {| Headword.text := [0x98F2; 0x8336];
            Headword.readings := [str "jam2 caa4"] |} ];
     DictionaryEntry.tags :=
       [ {| Tag.name := str "pos"; Tag.value := [0x52D5; 0x8A5E] |} ];
     DictionaryEntry.senses :=
       [ {| Sense.explanation :=
              <[str "yue" := [[0x98F2; 0x8336]]]>
                (<[str "eng" := [str "to have dim sum"]]> ∅);
            Sense.egs :=
              [ <[str "yue" := [[0x53BB; 0x98F2; 0x8336]]]>
                  (<[str "eng" := [str "go for dim sum"]]> ∅) ] |};
         {| Sense.explanation := <[str "eng" := [str "to drink tea"]]> ∅;
            Sense.egs := [] |} ] |}.

(** The same for an id that is an integer a double holds. *)
Definition sampleEntry (id : Z) : DictionaryEntry.t :=
  sampleEntryOf (Number.Int id).

End Sample.

(* ===================================================================== *)
(** ** [src/parser/csvReader.ts]: the loop over the records *)
(* ===================================================================== *)

Module CsvReader.
Import EntryParser.

(** The three literals of the loop: the body of a row without data, the
    warning of an unreviewed row, and the [public] field of a published
    row. *)
Definition NO_DATA : jsstring :=
  [0x672A; 0x6709; 0x5167; 0x5BB9] ++ str " NO DATA".

Definition UNREVIEWED : jsstring :=
  [0x672A; 0x7D93; 0x8986; 0x6838; 0xFF0C; 0x53EF; 0x80FD; 0x6709; 0x932F;
   0x6F0F] ++ str " UNREVIEWED ENTRY - MAY CONTAIN ERRORS OR OMISSIONS".

Definition PUBLISHED : jsstring := [0x5DF2; 0x516C; 0x958B].

(** The variables of [parseCSVEntries]: the array of parsed entries and the
    four counters. *)
Record counters := {
  dictionaryEntries : list DictionaryEntry.t;
  unpublishedCount : nat;
  noDataCount : nat;
  unreviewedCount : nat;
  errorCount : nat
}.

Definition countersStart : counters :=
  {| dictionaryEntries := []; unpublishedCount := 0; noDataCount := 0;
     unreviewedCount := 0; errorCount := 0 |}.

(** The body of [for (const entry of data)]; the [catch] takes every
    exception. *)
Definition parseCSVEntriesStep (st : counters) (entry : CsvRecord.t)
    : counters :=
  if eqStr (CsvRecord.entry entry) NO_DATA then
    {| dictionaryEntries := dictionaryEntries st;
       unpublishedCount := unpublishedCount st;
       noDataCount := S (noDataCount st);
       unreviewedCount := unreviewedCount st;
       errorCount := errorCount st |}
  else
    let unreviewedCount :=
      if includes UNREVIEWED (CsvRecord.warning entry)
      then S (unreviewedCount st) else unreviewedCount st in
    let unpublishedCount :=
      if negb (eqStr (CsvRecord.public entry) PUBLISHED)
      then S (unpublishedCount st) else unpublishedCount st in
    match parseEntry entry with
    | Ok parsedEntry =>
        {| dictionaryEntries := dictionaryEntries st ++ [parsedEntry];
           unpublishedCount := unpublishedCount;
           noDataCount := noDataCount st;
           unreviewedCount := unreviewedCount;
           errorCount := errorCount st |}
    | Throw _ =>
        {| dictionaryEntries := dictionaryEntries st;
           unpublishedCount := unpublishedCount;
           noDataCount := noDataCount st;
           unreviewedCount := unreviewedCount;
           errorCount := S (errorCount st) |}
    end.

(** The loop of [parseCSVEntries] over the records read from the file. *)
Definition parseCSVEntriesLoop (data : list CsvRecord.t) : counters :=
  foldl parseCSVEntriesStep countersStart data.

(** What [parseCSVEntries] resolves to, given the records read. *)
Definition parseCSVEntries (data : list CsvRecord.t)
    : list DictionaryEntry.t :=
  dictionaryEntries (parseCSVEntriesLoop data).

(** The entry a row contributes: none for a row without data and for a row
    on which [parseEntry] throws. *)
Definition entryOfRow (entry : CsvRecord.t) : option DictionaryEntry.t :=
  if eqStr (CsvRecord.entry entry) NO_DATA then None
  else match parseEntry entry with Ok e => Some e | Throw _ => None end.

End CsvReader.

(* ===================================================================== *)
(** ** Vocabulary of the further properties *)
(* ===================================================================== *)

Module Tokens.
Import Text Cantonese.

(** A string the string iterator yields: one code unit, or a surrogate
    pair. *)
Definition isCodePointString (char : jsstring) : bool :=
  match char with
  | [_] => true
  | [h; l] => isHighSurrogate h && isLowSurrogate l
  | _ => false
  end.

(** The string without its white-space code units. *)
Definition stripWhiteSpace (s : jsstring) : jsstring :=
  List.filter (λ c, negb (isWhiteSpace c)) s.

(** The two shapes of a token: a non-empty run of ASCII letters and digits
    in which no digit stands directly before a letter, and a single code
    point that is neither a letter or digit nor white space. *)
Definition isRunToken (t : jsstring) : bool :=
  nonEmpty t && forallb isAsciiAlnum t && negb (digitThenLetter t).

Definition isSymbolToken (t : jsstring) : bool :=
  isCodePointString t && negb (testAlnum t)
  && forallb (λ c, negb (isWhiteSpace c)) t.

(** What the loop keeps of its state: the open run holds letters and
    digits only, with no digit directly before a letter, and every pushed
    string is such a run, closed, or a code point that is no letter or
    digit. *)
Definition pushedShape (x : jsstring) : bool :=
  isRunToken x || (isCodePointString x && negb (testAlnum x)).

Definition openRun (cur : jsstring) : bool :=
  forallb isAsciiAlnum cur && negb (digitThenLetter cur).

(** A text token and a reading token that the first branch of the aligner
    pairs. *)
Definition alignable (t r : jsstring) : bool :=
  (isHanzi (Some t) || isJyuutping (Some t)) && jyutpingToken r.

Definition pairOf (t r : jsstring) : TextReadingPair :=
  {| text := t; reading := r |}.

(** No two of the three classifiers accept the token. *)
Definition classesExclusive (t : jsstring) : bool :=
  let h := isHanzi (Some t) in
  let j := isJyuutping (Some t) in
  let p := isPunctuation (Some t) in
  negb (h && j) && negb (h && p) && negb (j && p).

End Tokens.

Module Blocks.
Import Constants EntryParser.

(** A headword written back as [text:reading:reading], and a list of
    headwords as its comma-separated groups. *)
Definition formatHeadword (h : Headword.t) : jsstring :=
  join (str ":") (Headword.text h :: Headword.readings h).

Definition formatHeadwords (hs : list Headword.t) : jsstring :=
  join (str ",") (map formatHeadword hs).

(** A language line: the code, a colon, the text. *)
Definition languageLineOf (item : jsstring * jsstring) : jsstring :=
  item.1 ++ str ":" ++ item.2.

(** One more segment, the trimmed text, at the end of the list of its
    code. *)
Definition pushSegment (m : LanguageData) (item : jsstring * jsstring)
    : LanguageData :=
  <[item.1 := default [] (m !! item.1) ++ [trim item.2]]> m.

(** The trimmed texts of the items with code [k], in order. *)
Definition segmentsOf (k : jsstring) (items : list (jsstring * jsstring))
    : list jsstring :=
  map (λ item, trim item.2)
      (List.filter (λ item, eqStr item.1 k) items).

(** A language line the loop opens a segment for: a code of the
    enumeration and a one-line text that is not blank. *)
Definition goodItem (item : jsstring * jsstring) : Prop :=
  item.1 ∈ LanguageArray ∧ (0x0A ∉ item.2) ∧ trim item.2 ≠ [].

(** The own keys of the object are codes of the enumeration. *)
Definition keysKnown (m : LanguageData) : Prop :=
  ∀ k, is_Some (m !! k) → k ∈ LanguageArray.

(** The loop keeps the own keys inside the enumeration; the open code is a
    code of the enumeration or an inherited property name. *)
Definition langInv (st : langState) : Prop :=
  keysKnown (languageData st)
  ∧ (currentLang st = [] ∨ currentLang st ∈ LanguageArray
     ∨ currentLang st ∈ Object.prototypeKeys).

(** The buffer of a language line with text [a] followed by the
    continuation lines [conts]. *)
Definition continued (a : jsstring) (conts : list jsstring) : jsstring :=
  foldl (λ buf line, buf ++ LF ++ trim line) (trim a) conts.

(** An occurrence of a language code in a block: the code, the text after
    the colon, and the continuation lines up to the next language line. *)
Abbreviation occurrence := (jsstring * jsstring * list jsstring)%type.

Definition occurrenceLines (g : occurrence) : list jsstring :=
  languageLineOf g.1 :: g.2.

Definition bufferOf (g : occurrence) : jsstring := continued g.1.2 g.2.

(** What the flush makes of an occurrence: one more segment under its
    code, the trimmed buffer, unless the buffer is the empty string. *)
Definition pushOccurrence (m : LanguageData) (g : occurrence) : LanguageData :=
  if nonEmpty (bufferOf g) then pushSegment m (g.1.1, bufferOf g) else m.

(** The segments of the occurrences of code [k], in order: one for each
    occurrence whose buffer is not the empty string. *)
Definition segmentsOfOccurrences (k : jsstring) (gs : list occurrence)
    : list jsstring :=
  map (λ g, trim (bufferOf g))
      (List.filter (λ g, eqStr g.1.1 k && nonEmpty (bufferOf g)) gs).

(** A line without a colon, and an occurrence with a code of the
    enumeration. *)
Definition plainLine (line : jsstring) : Prop :=
  (0x0A ∉ line) ∧ (0x3A ∉ line).

Definition goodOccurrence (g : occurrence) : Prop :=
  g.1.1 ∈ LanguageArray ∧ (0x0A ∉ g.1.2) ∧ Forall plainLine g.2.

(** A sense made of a block and of nothing else: the block, without its
    first explanation marker, is an explanation text and example texts
    with a line ["<eg>"] between each two, none of them having such a line
    itself; the explanation of the sense is read from the first and its
    examples from the others, one each and in order. *)
Definition senseOfBlock (block : jsstring) (sense : Sense.t) : Prop :=
  ∃ explanationText exampleTexts,
    join (str "<eg>") (explanationText :: exampleTexts)
    = replaceFirst (str "<explanation>" ++ LF) block
    ∧ Forall (λ text, countLines (str "<eg>") text = 0%nat)
             (explanationText :: exampleTexts)
    ∧ parseLanguageData explanationText = Ok (Sense.explanation sense)
    ∧ Forall2 (λ text eg, parseLanguageData text = Ok eg)
              exampleTexts (Sense.egs sense).

End Blocks.

Module Padding.

(** A string of white space only. *)
Definition blank (ws : jsstring) : Prop :=
  Forall (λ c, isWhiteSpace c = true) ws.

(** A string with no white space at either end. *)
Definition tight (t : jsstring) : Prop :=
  (∀ c, head t = Some c → isWhiteSpace c = false)
  ∧ (∀ c, last t = Some c → isWhiteSpace c = false).

(** A fragment, its parentheses taken off, that writes a tag: the name
    and the value, each with any white space around it, and a colon
    between the two; the name has no colon. *)
Definition writesTag (fragment : jsstring) (tag : Tag.t) : Prop :=
  ∃ ws1 ws2 ws3 ws4 : jsstring,
    blank ws1 ∧ blank ws2 ∧ blank ws3 ∧ blank ws4
    ∧ fragment = ws1 ++ Tag.name tag ++ ws2 ++ str ":" ++ ws3
                   ++ Tag.value tag ++ ws4
    ∧ tight (Tag.name tag) ∧ tight (Tag.value tag)
    ∧ (0x3A ∉ Tag.name tag).

End Padding.

Module Numerals.
Import Text Padding.










End Numerals.

(* ===================================================================== *)
(** ** Basic facts about strings *)
(* ===================================================================== *)

(** A closed decidable proposition, by evaluation of its decision. *)
Ltac by_decide :=
  match goal with
  | |- ?P => apply (@bool_decide_unpack P _); vm_compute; exact I
  end.

Section StringFacts.

Lemma nonEmpty_true (s : jsstring) : nonEmpty s = true ↔ s ≠ [].
Proof. destruct s; simpl; split; first [done | congruence]. Qed.

Lemma trimStart_no_ws (s : jsstring) :
  Forall (λ c, isWhiteSpace c = false) s → trimStart s = s.
Proof. destruct 1 as [|c s Hc _]; simpl; [done | by rewrite Hc]. Qed.

Lemma trim_no_ws (s : jsstring) :
  Forall (λ c, isWhiteSpace c = false) s → trim s = s.
Proof.
  intros H. unfold trim, trimEnd. rewrite (trimStart_no_ws s H).
  rewrite trimStart_no_ws; [apply rev_involutive|].
  by apply List.Forall_rev.
Qed.

(** *** [trim] *)

Lemma trimStart_snoc (l : jsstring) c :
  isWhiteSpace c = false → trimStart (l ++ [c]) = trimStart l ++ [c].
Proof.
  intros Hc. induction l as [|x l IH]; simpl; [by rewrite Hc|].
  by destruct (isWhiteSpace x).
Qed.

Lemma trimEnd_cons c (s : jsstring) :
  isWhiteSpace c = false → trimEnd (c :: s) = c :: trimEnd s.
Proof.
  intros Hc. unfold trimEnd. simpl.
  by rewrite trimStart_snoc, rev_app_distr.
Qed.

Lemma trimStart_head (s : jsstring) :
  match trimStart s with [] => True | c :: _ => isWhiteSpace c = false end.
Proof.
  induction s as [|c s IH]; simpl; [done|].
  by destruct (isWhiteSpace c) eqn:E.
Qed.

Lemma trimStart_idemp (s : jsstring) : trimStart (trimStart s) = trimStart s.
Proof.
  pose proof (trimStart_head s) as H.
  destruct (trimStart s) as [|c s']; simpl; [done | by rewrite H].
Qed.

Lemma trimEnd_idemp (s : jsstring) : trimEnd (trimEnd s) = trimEnd s.
Proof. unfold trimEnd. by rewrite rev_involutive, trimStart_idemp. Qed.

Lemma trimStart_trim (s : jsstring) : trimStart (trim s) = trim s.
Proof.
  unfold trim. pose proof (trimStart_head s) as H.
  destruct (trimStart s) as [|c s']; [done|].
  rewrite trimEnd_cons by done. simpl. by rewrite H.
Qed.

Lemma trim_idemp (s : jsstring) : trim (trim s) = trim s.
Proof.
  unfold trim at 1. rewrite trimStart_trim. unfold trim.
  apply trimEnd_idemp.
Qed.

(** *** [startsWith], [includes], [replace] *)

Lemma startsWith_app (p s : jsstring) : startsWith p (p ++ s) = true.
Proof. induction p as [|a p IH]; simpl; [done|]. by rewrite N.eqb_refl. Qed.

Lemma startsWith_true (p s : jsstring) :
  startsWith p s = true → s = p ++ drop (length p) s.
Proof.
  revert s. induction p as [|a p IH]; intros s; [done|].
  destruct s as [|b s]; [done|]. cbn [startsWith length drop app].
  intros H. apply andb_true_iff in H as [Hab Hp].
  apply N.eqb_eq in Hab as ->. f_equal. by apply IH.
Qed.

Lemma startsWith_length (p s : jsstring) :
  startsWith p s = true → (length p ≤ length s)%nat.
Proof.
  revert s. induction p as [|a p IH]; intros s; cbn [length]; [lia|].
  destruct s as [|b s]; [done|]. cbn [startsWith length].
  intros H. apply andb_true_iff in H as [_ Hp]. apply IH in Hp. lia.
Qed.

Lemma includes_app_r (p u s : jsstring) : includes p (u ++ p ++ s) = true.
Proof.
  induction u as [|c u IH]; simpl.
  - destruct (p ++ s) eqn:E; simpl; rewrite <- ?E, startsWith_app; done.
  - rewrite IH. apply orb_true_r.
Qed.

Lemma includes_char_false c (s : jsstring) :
  c ∉ s → includes [c] s = false.
Proof.
  induction s as [|x s IH]; intros Hc; [done|].
  apply not_elem_of_cons in Hc as [Hne Hc].
  cbn [includes startsWith]. rewrite (IH Hc).
  destruct (N.eqb_spec c x); [done|]. by destruct s.
Qed.

Lemma replaceFirst_prefix (p s : jsstring) : replaceFirst p (p ++ s) = s.
Proof.
  destruct (p ++ s) eqn:E; simpl; rewrite <- ?E, startsWith_app.
  - destruct p; [|done]. simpl in *. by subst.
  - by rewrite drop_app_length.
  Qed.

(** *** [split] *)

Lemma splitLoop_cur m len (s : jsstring) : ∀ prev skip cur,
  splitLoop m len prev skip cur s
  = (rev cur ++ hd [] (splitLoop m len prev skip [] s))
    :: tl (splitLoop m len prev skip [] s).
Proof.
  induction s as [|c s IH]; intros prev skip cur.
  - simpl. by rewrite app_nil_r.
  - cbn [splitLoop]. destruct skip as [|k]; [|apply IH].
    destruct (m prev (c :: s)).
    + simpl. by rewrite app_nil_r.
    + rewrite (IH _ _ (c :: cur)), (IH _ _ [c]). simpl.
      by rewrite <- !app_assoc.
Qed.

Lemma splitLoop_prev_irrel (f : jsstring → bool) len (s : jsstring) :
  ∀ prev prev' skip cur,
  splitLoop (λ _ rest, f rest) len prev skip cur s
  = splitLoop (λ _ rest, f rest) len prev' skip cur s.
Proof. destruct s; done. Qed.

(** The recursive reading of [split] on a one-character separator. *)
Lemma split_char_cons c x (s : jsstring) :
  split [c] (x :: s) =
  if c =? x then [] :: split [c] s
  else (x :: hd [] (split [c] s)) :: tl (split [c] s).
Proof.
  unfold split. cbn [splitLoop startsWith length pred].
  rewrite andb_true_r. destruct (c =? x).
  - simpl. f_equal. apply splitLoop_prev_irrel.
  - rewrite splitLoop_cur. simpl.
    by rewrite (splitLoop_prev_irrel _ _ _ (Some x) None).
Qed.

Lemma split_char_none c (s : jsstring) : c ∉ s → split [c] s = [s].
Proof.
  induction s as [|x s IH]; intros Hc; [done|].
  apply not_elem_of_cons in Hc as [Hne Hc].
  rewrite split_char_cons, (IH Hc).
  destruct (N.eqb_spec c x); done.
Qed.

Lemma split_char_app c (u s : jsstring) :
  c ∉ u → split [c] (u ++ c :: s) = u :: split [c] s.
Proof.
  induction u as [|x u IH]; intros Hc.
  - simpl. by rewrite split_char_cons, N.eqb_refl.
  - apply not_elem_of_cons in Hc as [Hne Hc].
    simpl. rewrite split_char_cons, (IH Hc).
    destruct (N.eqb_spec c x); done.
Qed.

End StringFacts.

(** *** Splitting on a full line

    [s.split(/^pat$/gm)] cuts at the lines that are exactly [pat]: it
    returns one piece more than there are such lines. *)

Section FullLineSplit.

Lemma linesOf_split (s : jsstring) : linesOf s = firstLine s :: restLines s.
Proof.
  unfold firstLine, restLines.
  destruct s as [|c s]; [done|]. simpl. by destruct (isLineTerminator c).
Qed.

Lemma fullLine_firstLine (pat : jsstring) :
  Forall (λ c, isLineTerminator c = false) pat →
  ∀ s, startsWith pat s && atLineEnd (drop (length pat) s)
       = eqStr pat (firstLine s).
Proof.
  induction 1 as [|a p Ha Hp IH]; intros s.
  - unfold eqStr, firstLine. destruct s as [|x s]; [done|].
    cbn [startsWith length drop atLineEnd andb linesOf].
    destruct (isLineTerminator x); cbn [hd]; [done|].
    symmetry. by apply bool_decide_eq_false.
  - destruct s as [|x s]; [done|].
    cbn [startsWith length drop]. unfold firstLine. cbn [linesOf].
    destruct (N.eqb_spec a x) as [->|Hne].
    + rewrite Ha. cbn [andb hd]. rewrite (IH s). unfold eqStr, firstLine.
      apply bool_decide_ext. split; [by intros ->|by intros [= ->]].
    + cbn [andb]. symmetry. apply bool_decide_eq_false.
      destruct (isLineTerminator x); cbn [hd]; congruence.
Qed.

Lemma matchFullLine_firstLine (pat : jsstring) prev (s : jsstring) :
  Forall (λ c, isLineTerminator c = false) pat →
  matchFullLine pat prev s = atLineStart prev && eqStr pat (firstLine s).
Proof.
  intros Hpat. unfold matchFullLine.
  by rewrite <- andb_assoc, fullLine_firstLine.
Qed.

Lemma firstLine_prefix (s : jsstring) :
  take (length (firstLine s)) s = firstLine s.
Proof.
  unfold firstLine. induction s as [|c s IH]; [done|].
  cbn [linesOf]. destruct (isLineTerminator c); cbn [hd length take]; [done|].
  by rewrite IH.
Qed.

Lemma firstLine_length (s : jsstring) :
  (length (firstLine s) ≤ length s)%nat.
Proof.
  unfold firstLine. induction s as [|c s IH]; [done|].
  cbn [linesOf]. destruct (isLineTerminator c); cbn [hd length]; lia.
Qed.

Lemma countEqual_linesOf pat (s : jsstring) :
  countEqual pat (linesOf s)
  = ((if eqStr pat (firstLine s) then 1 else 0)
     + countEqual pat (restLines s))%nat.
Proof.
  rewrite linesOf_split at 1. unfold countEqual. cbn [List.filter].
  by destruct (eqStr pat (firstLine s)).
Qed.

Lemma restLines_cons c (s : jsstring) :
  restLines (c :: s) = if isLineTerminator c then linesOf s else restLines s.
Proof. unfold restLines. cbn [linesOf]. by destruct (isLineTerminator c). Qed.

(** At the start of a line the pieces still to come are one more than the
    lines equal to [pat]; inside a line, and while the rest of a matched
    line is passed over, no match begins before the next line
    terminator. *)
Lemma splitLoop_fullLine_length (pat : jsstring) :
  pat ≠ [] → Forall (λ c, isLineTerminator c = false) pat →
  ∀ (s : jsstring) prev skip cur,
    ((skip = 0%nat → atLineStart prev = true →
      length (splitLoop (matchFullLine pat) (length pat) prev skip cur s)
      = S (countEqual pat (linesOf s)))
     ∧ ((skip = 0%nat → atLineStart prev = false) →
        (skip ≤ length s)%nat →
        Forall (λ c, isLineTerminator c = false) (take skip s) →
        length (splitLoop (matchFullLine pat) (length pat) prev skip cur s)
        = S (countEqual pat (restLines s)))).
Proof.
  intros Hne Hpat.
  induction s as [|c s IH]; intros prev skip cur.
  { split; [intros -> _|intros _ Hle _].
    - cbn. unfold eqStr. by rewrite bool_decide_eq_false_2.
    - by destruct skip. }
  split.
  - intros -> Hstart. cbn [splitLoop].
    rewrite matchFullLine_firstLine, Hstart by done. cbn [andb].
    rewrite countEqual_linesOf, restLines_cons.
    destruct (eqStr pat (firstLine (c :: s))) eqn:Hm.
    + apply bool_decide_eq_true in Hm.
      pose proof (firstLine_prefix (c :: s)) as Hpre.
      pose proof (firstLine_length (c :: s)) as Hlen.
      rewrite <- Hm in Hpre, Hlen.
      destruct pat as [|a p]; [done|].
      cbn [length take] in Hpre, Hlen. injection Hpre as -> Hpre.
      inversion_clear Hpat as [|? ? Ha Hp].
      rewrite Ha. cbn [length pred] in IH |- *.
      rewrite (proj2 (IH (Some a) (length p) [])); [lia | done | lia |].
      by rewrite Hpre.
    + destruct (isLineTerminator c) eqn:Hc.
      * by rewrite (proj1 (IH (Some c) 0%nat (c :: cur)) eq_refl Hc).
      * rewrite (proj2 (IH (Some c) 0%nat (c :: cur))); [done..| |];
          [lia | by rewrite take_0].
  - intros H0 Hle Hno. cbn [splitLoop]. rewrite restLines_cons.
    destruct skip as [|k].
    + rewrite matchFullLine_firstLine, (H0 eq_refl) by done. cbn [andb].
      destruct (isLineTerminator c) eqn:Hc.
      * by rewrite (proj1 (IH (Some c) 0%nat (c :: cur)) eq_refl Hc).
      * rewrite (proj2 (IH (Some c) 0%nat (c :: cur))); [done..| |];
          [lia | by rewrite take_0].
    + cbn [take] in Hno. inversion_clear Hno as [|? ? Hc Hno'].
      rewrite Hc. cbn [length] in Hle.
      rewrite (proj2 (IH (Some c) k cur)); [done | by intros _ | lia | done].
Qed.

Lemma splitFullLine_length (pat s : jsstring) :
  pat ≠ [] → Forall (λ c, isLineTerminator c = false) pat →
  length (splitFullLine pat s) = S (countLines pat s).
Proof.
  intros Hne Hpat. unfold splitFullLine, countLines.
  by destruct (splitLoop_fullLine_length pat Hne Hpat s None 0%nat [])
    as [-> _].
Qed.

(** *** The pieces of a split

    Joined by the separator, the pieces of a split give the string back;
    and no piece of a split on a full line has such a line. *)

Lemma join_cons_pieces sep (x : jsstring) rest :
  rest ≠ [] → join sep (x :: rest) = x ++ sep ++ join sep rest.
Proof. by destruct rest. Qed.

Lemma join_splitLoop (m : option N → jsstring → bool) (pat : jsstring) :
  (∀ prev s, m prev s = true → startsWith pat s = true) → pat ≠ [] →
  ∀ (s : jsstring) prev skip cur,
    (skip ≤ length s)%nat →
    join pat (splitLoop m (length pat) prev skip cur s) = rev cur ++ drop skip s.
Proof.
  intros Hm Hne. induction s as [|c s IH]; intros prev skip cur Hskip.
  { cbn [length] in Hskip. assert (skip = 0%nat) as -> by lia. cbn.
    by rewrite app_nil_r. }
  cbn [splitLoop]. destruct skip as [|k].
  - destruct (m prev (c :: s)) eqn:Hmatch.
    + apply Hm in Hmatch.
      pose proof (startsWith_length _ _ Hmatch) as Hlen.
      pose proof (startsWith_true _ _ Hmatch) as Heq.
      rewrite join_cons_pieces by (rewrite splitLoop_cur; done).
      destruct pat as [|a p]; [done|]. cbn [length pred drop] in *.
      rewrite IH by lia. cbn [rev app]. f_equal. symmetry. exact Heq.
    + rewrite IH by (cbn [length]; lia). cbn [rev drop].
      by rewrite <- app_assoc.
  - cbn [length] in Hskip. rewrite IH by lia. done.
Qed.

Lemma join_splitFullLine (pat s : jsstring) :
  pat ≠ [] → join pat (splitFullLine pat s) = s.
Proof.
  intros Hne. unfold splitFullLine.
  rewrite join_splitLoop; [done | | done | cbn [length]; lia].
  intros prev t H. unfold matchFullLine in H.
  by apply andb_true_iff in H as [H _]; apply andb_true_iff in H as [_ H].
Qed.

Lemma firstLine_cons c (s : jsstring) :
  firstLine (c :: s) = if isLineTerminator c then [] else c :: firstLine s.
Proof. unfold firstLine. cbn [linesOf]. by destruct (isLineTerminator c). Qed.

Lemma atLineEnd_firstLine (s : jsstring) :
  atLineEnd s = true → firstLine s = [].
Proof.
  destruct s as [|c s]; [done|]. cbn [atLineEnd]. intros Hc.
  by rewrite firstLine_cons, Hc.
Qed.

(** At the start of a line the piece under way has no line equal to
    [pat]; inside a line, and while the rest of a matched line is passed
    over, the piece keeps the line under way whole and has no line equal to
    [pat] after it. *)
Lemma splitLoop_fullLine_lines (pat : jsstring) :
  pat ≠ [] → Forall (λ c, isLineTerminator c = false) pat →
  ∀ (s : jsstring) prev skip,
    let pieces := splitLoop (matchFullLine pat) (length pat) prev skip [] s in
    (skip = 0%nat → atLineStart prev = true →
     countEqual pat (linesOf (hd [] pieces)) = 0%nat
     ∧ Forall (λ piece, countLines pat piece = 0%nat) (tl pieces))
    ∧ ((skip = 0%nat → atLineStart prev = false) →
       (skip ≤ length s)%nat →
       Forall (λ c, isLineTerminator c = false) (take skip s) →
       firstLine (hd [] pieces) = firstLine (drop skip s)
       ∧ countEqual pat (restLines (hd [] pieces)) = 0%nat
       ∧ Forall (λ piece, countLines pat piece = 0%nat) (tl pieces)).
Proof.
  intros Hne Hpat.
  assert (eqStr pat [] = false) as Hpat_nil.
  { unfold eqStr. by apply bool_decide_eq_false. }
  induction s as [|c s IH]; intros prev skip pieces.
  { subst pieces. split.
    - intros -> _. cbn. by rewrite Hpat_nil.
    - intros _ Hle _. by destruct skip. }
  subst pieces. cbn [splitLoop]. split.
  - intros -> Hstart.
    rewrite matchFullLine_firstLine, Hstart by done. cbn [andb].
    destruct (eqStr pat (firstLine (c :: s))) eqn:Hm.
    + cbn [hd tl]. split; [cbn; by rewrite Hpat_nil|].
      pose proof (fullLine_firstLine pat Hpat (c :: s)) as Hfull.
      rewrite Hm in Hfull. apply andb_true_iff in Hfull as [Hsw Hend].
      pose proof (startsWith_length _ _ Hsw) as Hlen.
      pose proof (startsWith_true _ _ Hsw) as Heq.
      destruct pat as [|a p]; [done|].
      cbn [length pred drop app] in *. injection Heq as -> Heq.
      inversion_clear Hpat as [|? ? Ha Hp].
      destruct (proj2 (IH (Some a) (length p))) as (Hfirst & Hrest & Htl).
      { by intros _. } { lia. }
      { rewrite Heq at 1. by rewrite take_app_length. }
      rewrite splitLoop_cur. cbn [rev app]. constructor; [|done].
      unfold countLines. rewrite countEqual_linesOf, Hfirst, Hrest.
      by rewrite (atLineEnd_firstLine _ Hend), Hpat_nil.
    + rewrite splitLoop_cur. cbn [rev app hd tl].
      rewrite countEqual_linesOf, restLines_cons, firstLine_cons.
      rewrite firstLine_cons in Hm.
      destruct (isLineTerminator c) eqn:Hc.
      * destruct (proj1 (IH (Some c) 0%nat) eq_refl Hc) as (Hcount & Htl).
        by rewrite Hpat_nil, Hcount.
      * destruct (proj2 (IH (Some c) 0%nat)) as (Hfirst & Hrest & Htl).
        { by intros _. } { lia. } { by rewrite take_0. }
        rewrite drop_0 in Hfirst. by rewrite Hfirst, Hm, Hrest.
  - intros H0 Hle Hno. destruct skip as [|k].
    + rewrite matchFullLine_firstLine, (H0 eq_refl) by done. cbn [andb].
      rewrite splitLoop_cur. cbn [rev app hd tl].
      rewrite restLines_cons, !firstLine_cons, drop_0, firstLine_cons.
      destruct (isLineTerminator c) eqn:Hc.
      * destruct (proj1 (IH (Some c) 0%nat) eq_refl Hc) as (Hcount & Htl).
        done.
      * destruct (proj2 (IH (Some c) 0%nat)) as (Hfirst & Hrest & Htl).
        { by intros _. } { lia. } { by rewrite take_0. }
        rewrite drop_0 in Hfirst. by rewrite Hfirst.
    + cbn [take length drop] in Hno, Hle |- *.
      inversion_clear Hno as [|? ? Hc Hno'].
      apply (proj2 (IH (Some c) k)); [by intros _ | lia | done].
Qed.

Lemma splitFullLine_no_line (pat s : jsstring) :
  pat ≠ [] → Forall (λ c, isLineTerminator c = false) pat →
  Forall (λ piece, countLines pat piece = 0%nat) (splitFullLine pat s).
Proof.
  intros Hne Hpat. unfold splitFullLine.
  destruct (proj1 (splitLoop_fullLine_lines pat Hne Hpat s None 0%nat)
              eq_refl eq_refl) as (Hhd & Htl).
  rewrite splitLoop_cur. by constructor.
Qed.

End FullLineSplit.


(* ===================================================================== *)
(** ** The tokenizer *)
(* ===================================================================== *)

Ltac to_prop :=
  rewrite ?orb_true_iff, ?andb_true_iff, ?orb_false_iff, ?andb_false_iff,
    ?negb_true_iff, ?negb_false_iff,
    ?N.leb_le, ?N.eqb_eq, ?N.leb_gt, ?N.eqb_neq in *.

Section Tokenizer.
Import Text Cantonese.

Lemma alnum_cases c :
  isAsciiAlnum c = true →
  isHighSurrogate c = false ∧ isLowSurrogate c = false
  ∧ isWhiteSpace c = false.
Proof.
  unfold isAsciiAlnum, isAsciiLetter, isAsciiDigit, isHighSurrogate,
    isLowSurrogate, isWhiteSpace, isLineTerminator.
  intros H. to_prop. lia.
Qed.

Lemma digit_not_letter c : isAsciiDigit c = true → isAsciiLetter c = false.
Proof. unfold isAsciiLetter, isAsciiDigit. intros H. to_prop. lia. Qed.

Lemma alnum_not_letter c :
  isAsciiAlnum c = true → isAsciiLetter c = false → isAsciiDigit c = true.
Proof. unfold isAsciiAlnum. intros H H'. rewrite H' in H. done. Qed.

Lemma iterate_cons_cons h l (t : jsstring) :
  iterate (h :: l :: t) =
  if isHighSurrogate h && isLowSurrogate l
  then [h; l] :: iterate t else [h] :: iterate (l :: t).
Proof. done. Qed.

Lemma iterate_app_not_low (u : jsstring) c rest :
  isLowSurrogate c = false →
  iterate (u ++ c :: rest) = iterate u ++ iterate (c :: rest).
Proof.
  intros Hc. remember (length u) as n eqn:Hn.
  revert u Hn. induction n as [n IH] using lt_wf_ind. intros u Hn.
  destruct u as [|h [|l u']]; [done| |].
  - change ([h] ++ c :: rest) with (h :: c :: rest).
    rewrite iterate_cons_cons, Hc, andb_false_r. done.
  - change ((h :: l :: u') ++ c :: rest) with (h :: l :: (u' ++ c :: rest)).
    rewrite !iterate_cons_cons.
    destruct (isHighSurrogate h && isLowSurrogate l).
    + assert (length u' < n)%nat as Hlt by (simpl in Hn; lia).
      by rewrite (IH _ Hlt u' eq_refl).
    + change (l :: u' ++ c :: rest) with ((l :: u') ++ c :: rest).
      assert (length (l :: u') < n)%nat as Hlt by (simpl in *; lia).
      by rewrite (IH _ Hlt (l :: u') eq_refl).
Qed.

Lemma iterate_cons_not_high c rest :
  isHighSurrogate c = false → iterate (c :: rest) = [c] :: iterate rest.
Proof. intros Hc. destruct rest; simpl; [done | by rewrite Hc]. Qed.

Lemma iterate_alnum (s : jsstring) :
  Forall (λ c, isAsciiAlnum c = true) s → iterate s = map (λ c, [c]) s.
Proof.
  induction 1 as [|c s Hc _ IH]; [done|].
  destruct (alnum_cases c Hc) as (Hh & _ & _).
  rewrite iterate_cons_not_high by done. by rewrite IH.
Qed.

Lemma splitStep_prefix R R' cur char :
  splitStep (R ++ R', cur) char =
  (R ++ (splitStep (R', cur) char).1, (splitStep (R', cur) char).2).
Proof.
  unfold splitStep.
  repeat match goal with
         | |- context [if ?b then _ else _] => destruct b
         end; simpl; by rewrite ?app_assoc.
Qed.

Lemma foldl_splitStep_prefix chars R R' cur :
  foldl splitStep (R ++ R', cur) chars =
  (R ++ (foldl splitStep (R', cur) chars).1,
   (foldl splitStep (R', cur) chars).2).
Proof.
  revert R' cur. induction chars as [|ch chars IH]; intros R' cur; [done|].
  cbn [foldl]. rewrite splitStep_prefix.
  destruct (splitStep (R', cur) ch) as [R2 c2]. cbn [fst snd]. apply IH.
Qed.

Lemma splitFinish_prefix R R' cur :
  splitFinish (R ++ R', cur) =
  List.filter nonEmpty (map trim R) ++ splitFinish (R', cur).
Proof.
  unfold splitFinish. destruct (nonEmpty cur);
    by rewrite <- ?app_assoc, map_app, List.filter_app.
Qed.

Lemma digitThenLetter_inside (l : jsstring) p c rest :
  digitThenLetter (l ++ p :: c :: rest) = false →
  isAsciiDigit p && isAsciiLetter c = false.
Proof.
  induction l as [|x l IH]; simpl.
  - intros H. by apply orb_false_iff in H as [? _].
  - destruct (l ++ p :: c :: rest) eqn:E; [by destruct l|].
    intros H. apply orb_false_iff in H as [_ H]. by apply IH.
Qed.

(** A run of letters and digits without a digit directly before a letter
    stays in [current]. *)
Lemma foldl_splitStep_run (s : jsstring) : ∀ R cur,
  Forall (λ c, isAsciiAlnum c = true) cur →
  Forall (λ c, isAsciiAlnum c = true) s →
  digitThenLetter (cur ++ s) = false →
  foldl splitStep (R, cur) (map (λ c, [c]) s) = (R, cur ++ s).
Proof.
  induction s as [|c s IH]; intros R cur Hcur Hs Hno.
  - by rewrite app_nil_r.
  - inversion_clear Hs as [|? ? Hc Hs'].
    cbn [map foldl].
    assert (splitStep (R, cur) [c] = (R, cur ++ [c])) as ->.
    { unfold splitStep, testAlnum, testLetter. cbn [existsb].
      rewrite Hc, !orb_false_r. cbn [orb].
      destruct (0 <? length cur)%nat eqn:Hlen; [|done].
      destruct (last cur) as [p|] eqn:Hlast.
      2:{ apply last_None in Hlast. subst cur. done. }
      apply last_Some in Hlast as [cur' ->].
      cbn [fmap option_fmap option_map toStr existsb].
      rewrite orb_false_r.
      rewrite <- app_assoc in Hno. simpl in Hno.
      apply digitThenLetter_inside in Hno.
      destruct (isAsciiLetter c) eqn:Hl; [|done].
      destruct (isAsciiLetter p) eqn:Hp; [done|].
      rewrite Forall_app, Forall_singleton in Hcur. destruct Hcur as [_ Hp'].
      rewrite (alnum_not_letter p Hp' Hp) in Hno. done. }
    rewrite IH; [by rewrite <- app_assoc | | done | by rewrite <- app_assoc].
    apply Forall_app. split; [done | by apply Forall_singleton].
Qed.

Lemma splitStep_alnum_shape R cur d :
  isAsciiAlnum d = true →
  ∃ R1 c1, splitStep (R, cur) [d] = (R1, c1 ++ [d]).
Proof.
  intros Hd. unfold splitStep, testAlnum. cbn [existsb]. rewrite Hd. cbn [orb].
  repeat match goal with
         | |- context [if ?b then _ else _] => destruct b
         end; eauto.
Qed.

Lemma splitStep_letter_after_digit R c1 d a :
  isAsciiDigit d = true → isAsciiLetter a = true →
  splitStep (R, c1 ++ [d]) [a] = (R ++ [c1 ++ [d]], [a]).
Proof.
  intros Hd Ha. unfold splitStep, testAlnum, testLetter, isAsciiAlnum.
  cbn [existsb]. rewrite Ha. cbn [orb andb].
  rewrite last_snoc. cbn [fmap option_fmap option_map toStr existsb].
  rewrite (digit_not_letter d Hd). cbn [orb negb].
  rewrite length_app. simpl.
  destruct (0 <? length c1 + 1)%nat eqn:E; [done|].
  apply Nat.ltb_ge in E. lia.
Qed.

Lemma nonEmpty_snoc (l : jsstring) x : nonEmpty (l ++ [x]) = true.
Proof. by destruct l. Qed.

(** The claim of C2 fails at its own example: the letters of ["bitging"]
    stay in one token. *)
Lemma splitString_bitging_not_split :
  splitString (str "bitging") ≠ [str "bit"; str "ging"].
Proof. vm_compute. discriminate. Qed.

(** C2, amended: the tokenizer keeps a run of letters and digits in one
    token, and opens a new token where a letter directly follows a digit of
    the open run (not where a letter follows a letter).  So a non-empty
    run without a digit directly before a letter is one token; at a digit
    directly followed by a letter the tokens of the input are those of the
    part up to the digit followed by those of the part from the letter on;
    ["bit1ging1"] gives the tokens ["bit1"] and ["ging1"], while
    ["bitging"] gives the single token ["bitging"]. *)
Theorem splitString_boundary_after_digit :
  (∀ s : jsstring,
      s ≠ [] → Forall (λ c, isAsciiAlnum c = true) s →
      digitThenLetter s = false → splitString s = [s])
  ∧ (∀ (u v : jsstring) d a,
      isAsciiDigit d = true → isAsciiLetter a = true →
      splitString (u ++ [d; a] ++ v)
      = splitString (u ++ [d]) ++ splitString (a :: v))
  ∧ splitString (str "bit1ging1") = [str "bit1"; str "ging1"]
  ∧ splitString (str "bitging") = [str "bitging"].
Proof.
  split; [|split; [|split; reflexivity]].
  - intros s Hne Hs Hno. unfold splitString.
    rewrite iterate_alnum by done.
    rewrite foldl_splitStep_run by done.
    unfold splitFinish. cbn [app].
    apply nonEmpty_true in Hne. rewrite Hne. cbn [app map].
    rewrite trim_no_ws.
    + cbn [List.filter]. by rewrite Hne.
    + eapply Forall_impl; [exact Hs|]. intros c Hc. by apply alnum_cases.
  - intros u v d a Hd Ha.
    assert (isAsciiAlnum d = true) as Hd'
      by (unfold isAsciiAlnum; rewrite Hd; apply orb_true_r).
    assert (isAsciiAlnum a = true) as Ha'
      by (unfold isAsciiAlnum; by rewrite Ha).
    destruct (alnum_cases d Hd') as (Hdh & Hdl & _).
    destruct (alnum_cases a Ha') as (Hah & Hal & _).
    unfold splitString. cbn [app].
    rewrite !iterate_app_not_low by done.
    rewrite (iterate_cons_not_high d) by done.
    rewrite (iterate_cons_not_high a) by done.
    cbn [iterate]. rewrite !foldl_app. cbn [foldl].
    destruct (foldl splitStep ([], []) (iterate u)) as [R cur].
    destruct (splitStep_alnum_shape R cur d Hd') as (R1 & c1 & ->).
    rewrite splitStep_letter_after_digit by done.
    assert (splitStep ([], []) [a] = ([], [a])) as ->.
    { unfold splitStep, testAlnum. cbn [existsb]. by rewrite Ha'. }
    rewrite <- (app_nil_r (R1 ++ [c1 ++ [d]])).
    rewrite foldl_splitStep_prefix.
    destruct (foldl splitStep ([], [a]) (iterate v)) as [R2 c2].
    cbn [fst snd]. rewrite splitFinish_prefix. f_equal.
    unfold splitFinish. by rewrite nonEmpty_snoc.
Qed.

Lemma splitString_boundary_after_digit_witness :
  splitString (str "bitging") = [str "bitging"]
  ∧ splitString (str "bit" ++ [0x31; 0x67] ++ str "ing1")
    = splitString (str "bit" ++ [0x31]) ++ splitString (0x67 :: str "ing1").
Proof.
  destruct splitString_boundary_after_digit as (H1 & H2 & _).
  split.
  - apply H1; [discriminate | | reflexivity].
    repeat constructor.
  - apply H2; reflexivity.
Defined.

End Tokenizer.


(* ===================================================================== *)
(** ** The reading aligner *)
(* ===================================================================== *)

Section Aligner.
Import Text Cantonese.

Lemma punctuation_not_jyutping r :
  isPunctuation (Some r) = true → isJyuutping (Some r) = false.
Proof.
  unfold isPunctuation, includesStr. intros H.
  apply existsb_exists in H as (x & Hin & Heq).
  apply bool_decide_eq_true in Heq. subst x.
  unfold punctuations in Hin. simpl in Hin.
  repeat (destruct Hin as [<- | Hin]; [reflexivity|]). done.
Qed.

Lemma splitString_nonEmpty input :
  Forall (λ t, nonEmpty t = true) (splitString input).
Proof.
  unfold splitString, splitFinish.
  destruct (foldl splitStep ([], []) (iterate input)) as [R cur].
  apply List.Forall_forall. intros t Ht.
  by apply List.filter_In in Ht as [_ ?].
Qed.

(** What a turn of the loop that does not throw has done. *)
Lemma alignStep_Ok ts rs i st st' :
  alignStep ts rs i st = Ok st' →
  ∃ t, ts !! textIndex st = Some t ∧ nonEmpty t = true
    ∧ textIndex st' = S (textIndex st)
    ∧ ((∃ r, rs !! readingIndex st = Some r ∧ nonEmpty r = true
          ∧ jyutpingToken r = true
          ∧ resultArray st' = resultArray st ++ [{| text := t; reading := r |}]
          ∧ readingIndex st' = S (readingIndex st))
       ∨ (resultArray st' = resultArray st ++ [emptyPair t]
          ∧ readingIndex st' = readingIndex st)
       ∨ (∃ r, rs !! readingIndex st = Some r
          ∧ jyutpingToken r = false
          ∧ resultArray st' = resultArray st ++ [emptyPair t]
          ∧ readingIndex st' = S (readingIndex st))).
Proof.
  unfold alignStep, jyutpingToken.
  destruct (ts !! textIndex st) as [t|]; cbn [truthy andb default];
    [|discriminate].
  destruct (nonEmpty t) eqn:Ht; cbn [andb]; [|discriminate].
  destruct (rs !! readingIndex st) as [r|]; cbn [truthy andb default].
  - destruct (nonEmpty r) eqn:Hr; cbn [andb].
    + destruct (isJyuutping (Some r)) eqn:Hj.
      * rewrite !andb_true_r.
        destruct (isHanzi (Some t) || isJyuutping (Some t)) eqn:Hcls.
        { intros [= <-]. exists t. cbn. split_and!; try done.
          left. by exists r. }
        apply orb_false_iff in Hcls as [-> ->].
        rewrite (bool_decide_eq_false_2 (Some r = None)) by done.
        cbn [andb orb negb].
        rewrite orb_true_r.
        intros [= <-]. exists t. cbn. split_and!; try done. by right; left.
      * rewrite !andb_false_r. cbn [orb].
        rewrite (bool_decide_eq_false_2 (Some r = None)) by done.
        cbn [orb].
        destruct (_ || _) eqn:Hc; [|discriminate].
        intros [= <-]. exists t. cbn. split_and!; try done.
        right; right. by exists r.
    + rewrite (bool_decide_eq_false_2 (Some r = None)) by done.
      destruct (isJyuutping (Some r)) eqn:Hj.
      * rewrite !andb_true_r. cbn [orb].
        destruct (_ || _) eqn:Hc; [|discriminate].
        intros [= <-]. exists t. cbn. split_and!; try done. by right; left.
      * rewrite !andb_false_r. cbn [orb]. discriminate.
  - rewrite bool_decide_eq_true_2 by done. rewrite orb_true_r. cbn [orb].
    intros [= <-]. exists t. cbn. split_and!; try done. by right; left.
Qed.

Lemma readingFields_snoc res p :
  readingFields (res ++ [p]) =
  readingFields res ++ (if nonEmpty (reading p) then [reading p] else []).
Proof.
  unfold readingFields. rewrite map_app, List.filter_app. simpl.
  by destruct (nonEmpty (reading p)).
Qed.

Lemma alignStep_inv ts rs i st st' :
  alignStep ts rs i st = Ok st' →
  alignInv ts rs i st → alignInv ts rs (S i) st'.
Proof.
  intros Hstep (Hti & Hlen & Hle & Hri & Hfields).
  apply alignStep_Ok in Hstep as (t & Ht & Hne & Hti' & Hcase).
  apply lookup_lt_Some in Ht as Hlt.
  unfold alignInv.
  destruct Hcase as [(r & Hr & Hrne & Hj & -> & ->)
                    |[(-> & ->)|(r & Hr & Hj & -> & ->)]].
  - apply lookup_lt_Some in Hr as Hrlt.
    rewrite length_app, readingFields_snoc, (take_S_r _ _ _ Hr),
      List.filter_app, Hfields.
    cbn [reading length List.filter]. rewrite Hrne, Hj.
    split_and!; try done; lia.
  - rewrite length_app, readingFields_snoc, app_nil_r.
    cbn [length]. split_and!; try done; lia.
  - apply lookup_lt_Some in Hr as Hrlt.
    rewrite length_app, readingFields_snoc, (take_S_r _ _ _ Hr),
      List.filter_app, Hfields.
    cbn [emptyPair reading nonEmpty length List.filter]. rewrite Hj.
    rewrite !app_nil_r. split_and!; try done; lia.
Qed.

Lemma alignLoop_inv ts rs n : ∀ i st st',
  alignLoop ts rs n i st = Ok st' →
  alignInv ts rs i st → alignInv ts rs (i + n) st'.
Proof.
  induction n as [|n IH]; intros i st st' Hloop Hinv.
  - injection Hloop as <-. by rewrite Nat.add_0_r.
  - cbn [alignLoop] in Hloop.
    destruct (alignStep ts rs i st) as [st1|e] eqn:Hstep; [|discriminate].
    cbn [mbind result_bind] in Hloop. apply IH in Hloop.
    + by replace (i + S n)%nat with (S i + n)%nat by lia.
    + by eapply alignStep_inv.
Qed.

Lemma alignStart_inv ts rs : alignInv ts rs 0 alignStart.
Proof. unfold alignInv. cbn. split_and!; try done; lia. Qed.

(** What an accepted alignment has done: the loop ran once per text token
    and passed every reading token. *)
Lemma alignTokens_Ok ts rs res :
  alignTokens ts rs = Ok res →
  ∃ st, alignLoop ts rs (length ts) 0 alignStart = Ok st
      ∧ res = resultArray st ∧ readingIndex st = length rs
      ∧ (length rs ≤ length ts)%nat
      ∧ alignInv ts rs (length ts) st.
Proof.
  unfold alignTokens. intros H.
  destruct (alignLoop ts rs (length ts `max` length rs) 0 alignStart)
    as [st|e] eqn:Hloop; [|discriminate].
  cbn [mbind result_bind] in H.
  destruct (readingIndex st <? length rs)%nat eqn:Hlt; [done|].
  injection H as <-. apply Nat.ltb_ge in Hlt.
  pose proof (alignLoop_inv _ _ _ _ _ _ Hloop (alignStart_inv ts rs)) as Hinv.
  cbn [Nat.add] in Hinv.
  destruct Hinv as (Hti & Hlen & Hle & Hri & Hfields).
  assert (length ts `max` length rs = length ts)%nat as Hmax by lia.
  rewrite Hmax in *.
  exists st. unfold alignInv. split_and!; try done; lia.
Qed.

(** The claim of C1 fails at the example of the project's README: the
    question mark of the reading is a reading token, and no pair carries
    it. *)
Lemma parseCantoneseReadings_drops_punctuation :
  let rawText := [0x4F60; 0x597D; 0x55CE; 0xFF1F] in
  let readings := str "nei5 hou2 maa3?" in
  ∃ res, parseCantoneseReadings rawText readings = Ok res
       ∧ readingFields res ≠ splitString readings.
Proof. eexists. split; [reflexivity|]. vm_compute. discriminate. Qed.

(** C1, amended: for every pair of input strings on which
    [parseCantoneseReadings] returns, the result has one pair per token of
    the text, and its non-empty reading fields, in order, are the tokens of
    the reading string that contain an ASCII letter or digit; the other
    reading tokens (punctuation and the like) are passed over without a
    pair of their own. *)
Theorem parseCantoneseReadings_coverage rawText readings res :
  parseCantoneseReadings rawText readings = Ok res →
  length res = length (splitString rawText)
  ∧ readingFields res = List.filter jyutpingToken (splitString readings).
Proof.
  unfold parseCantoneseReadings. intros H.
  apply alignTokens_Ok in H as (st & _ & -> & Hri & _ & Hinv).
  destruct Hinv as (_ & Hlen & _ & _ & Hfields).
  split; [done|].
  by rewrite Hfields, Hri, firstn_all.
Qed.

Lemma parseCantoneseReadings_coverage_witness :
  let rawText := [0x4F60; 0x597D; 0x55CE; 0xFF1F] in
  let readings := str "nei5 hou2 maa3?" in
  let res := [ {| text := [0x4F60]; reading := str "nei5" |};
               {| text := [0x597D]; reading := str "hou2" |};
               {| text := [0x55CE]; reading := str "maa3" |};
               {| text := [0xFF1F]; reading := [] |} ] in
  parseCantoneseReadings rawText readings = Ok res
  ∧ length res = length (splitString rawText)
  ∧ readingFields res = List.filter jyutpingToken (splitString readings).
Proof.
  intros rawText readings res.
  split; [reflexivity|].
  apply (parseCantoneseReadings_coverage rawText readings res).
  reflexivity.
Defined.

Lemma alignLoop_add ts rs n1 : ∀ n2 i st,
  alignLoop ts rs (n1 + n2) i st =
  st' ← alignLoop ts rs n1 i st; alignLoop ts rs n2 (i + n1) st'.
Proof.
  induction n1 as [|n1 IH]; intros n2 i st.
  - cbn. by rewrite Nat.add_0_r.
  - cbn [Nat.add alignLoop].
    destruct (alignStep ts rs i st) as [st1|e]; [|done].
    cbn [mbind result_bind]. rewrite IH.
    by replace (S i + n1)%nat with (i + S n1)%nat by lia.
Qed.

(** While the text cursor is inside [ts], tokens appended to [ts] are not
    looked at. *)
Lemma alignLoop_app_l ts extra rs n : ∀ i st,
  (textIndex st + n ≤ length ts)%nat →
  alignLoop (ts ++ extra) rs n i st = alignLoop ts rs n i st.
Proof.
  induction n as [|n IH]; intros i st Hle; [done|].
  cbn [alignLoop].
  assert (alignStep (ts ++ extra) rs i st = alignStep ts rs i st) as ->.
  { unfold alignStep. rewrite lookup_app_l by lia. done. }
  destruct (alignStep ts rs i st) as [st1|e] eqn:Hstep; [|done].
  cbn [mbind result_bind]. apply IH.
  apply alignStep_Ok in Hstep as (t & _ & _ & -> & _). lia.
Qed.

(** Once the readings are used up, every further text token is paired with
    the empty reading. *)
Lemma alignLoop_no_reading_left rs extra : ∀ pre i st,
  textIndex st = length pre → (length rs ≤ readingIndex st)%nat →
  Forall (λ t, nonEmpty t = true) extra →
  alignLoop (pre ++ extra) rs (length extra) i st
  = Ok {| resultArray := resultArray st ++ map emptyPair extra;
          readingIndex := readingIndex st;
          textIndex := (length pre + length extra)%nat |}.
Proof.
  induction extra as [|t extra IH]; intros pre i st Hti Hri Hne.
  - cbn. rewrite app_nil_r, Nat.add_0_r, <- Hti. by destruct st.
  - inversion_clear Hne as [|? ? Ht Hne'].
    cbn [length alignLoop].
    assert (alignStep (pre ++ t :: extra) rs i st
            = Ok {| resultArray := resultArray st ++ [emptyPair t];
                    readingIndex := readingIndex st;
                    textIndex := S (textIndex st) |}) as ->.
    { unfold alignStep. rewrite Hti, list_lookup_middle by done.
      rewrite (lookup_ge_None_2 rs) by done.
      cbn [truthy andb default]. rewrite Ht.
      rewrite bool_decide_eq_true_2 by done.
      cbn [andb]. by rewrite orb_true_r. }
    cbn [mbind result_bind].
    rewrite (cons_middle t pre extra), app_assoc.
    rewrite IH; cbn [textIndex readingIndex resultArray]; try done.
    + rewrite <- app_assoc, length_app. cbn [length app map].
      do 2 f_equal. lia.
    + rewrite length_app. cbn [length]. lia.
Qed.

Lemma alignTokens_trailing_text ts extra rs res :
  Forall (λ t, nonEmpty t = true) extra →
  alignTokens ts rs = Ok res →
  alignTokens (ts ++ extra) rs = Ok (res ++ map emptyPair extra).
Proof.
  intros Hne H.
  apply alignTokens_Ok in H as (st & Hloop & -> & Hri & Hle & Hinv).
  destruct Hinv as (Hti & _).
  unfold alignTokens.
  rewrite length_app.
  replace ((length ts + length extra) `max` length rs)%nat
    with (length ts + length extra)%nat by lia.
  rewrite alignLoop_add, alignLoop_app_l by (cbn; lia).
  rewrite Hloop. cbn [mbind result_bind Nat.add].
  rewrite alignLoop_no_reading_left by (done || lia).
  cbn [mbind result_bind readingIndex resultArray].
  rewrite Hri, Nat.ltb_irrefl. done.
Qed.

(** C3: when the loop ends with a reading token that the reading cursor
    has not passed, [parseCantoneseReadings] throws, naming that token;
    it throws as well whenever the readings have more tokens than the
    text, as for the text of one ideograph against ["nei5 hou2"]; and text
    tokens that come after the last reading token are accepted, each with
    the empty reading: appending tokens to an accepted text appends their
    empty-reading pairs to the result, as for the trailing question mark
    of two ideographs and a question mark against ["nei5 hou2"]. *)
Theorem parseCantoneseReadings_unconsumed_readings :
  (∀ rawText readings st,
      let textArray := splitString rawText in
      let readingsArray := splitString readings in
      alignLoop textArray readingsArray
        (length textArray `max` length readingsArray) 0 alignStart = Ok st →
      (readingIndex st < length readingsArray)%nat →
      parseCantoneseReadings rawText readings
      = Throw (Error_ (UnexpectedReading
                         (readingsArray !! readingIndex st)
                         (readingIndex st))))
  ∧ (∀ rawText readings,
      (length (splitString rawText) < length (splitString readings))%nat →
      throws (parseCantoneseReadings rawText readings) = true)
  ∧ throws (parseCantoneseReadings [0x4F60] (str "nei5 hou2")) = true
  ∧ (∀ rawText rawText' readings res extra,
      splitString rawText' = splitString rawText ++ extra →
      parseCantoneseReadings rawText readings = Ok res →
      parseCantoneseReadings rawText' readings
      = Ok (res ++ map emptyPair extra))
  ∧ parseCantoneseReadings [0x4F60; 0x597D; 0xFF1F] (str "nei5 hou2")
    = Ok [ {| text := [0x4F60]; reading := str "nei5" |};
           {| text := [0x597D]; reading := str "hou2" |};
           {| text := [0xFF1F]; reading := [] |} ].
Proof.
  split_and!; [| | reflexivity | | reflexivity].
  - intros rawText readings st textArray readingsArray Hloop Hlt.
    unfold parseCantoneseReadings, alignTokens.
    fold textArray readingsArray. rewrite Hloop.
    cbn [mbind result_bind].
    apply Nat.ltb_lt in Hlt. by rewrite Hlt.
  - intros rawText readings Hlt. unfold parseCantoneseReadings.
    destruct (alignTokens (splitString rawText) (splitString readings))
      as [res|e] eqn:H; [|done].
    apply alignTokens_Ok in H as (_ & _ & _ & _ & Hle & _). lia.
  - intros rawText rawText' readings res extra Hsplit H.
    unfold parseCantoneseReadings in *. rewrite Hsplit.
    apply alignTokens_trailing_text; [|done].
    pose proof (splitString_nonEmpty rawText') as Hne.
    rewrite Hsplit in Hne. by apply Forall_app in Hne as [_ ?].
Qed.

Lemma parseCantoneseReadings_unconsumed_readings_witness :
  parseCantoneseReadings [0xFF1F; 0xFF1F] (str "a1")
  = Throw (Error_ (UnexpectedReading (Some (str "a1")) 0))
  ∧ throws (parseCantoneseReadings [0x4F60] (str "nei5 hou2 maa3")) = true
  ∧ parseCantoneseReadings [0x4F60; 0x597D; 0xFF1F; 0x21] (str "nei5 hou2")
    = Ok ([ {| text := [0x4F60]; reading := str "nei5" |};
            {| text := [0x597D]; reading := str "hou2" |} ]
          ++ map emptyPair [[0xFF1F]; [0x21]]).
Proof.
  destruct parseCantoneseReadings_unconsumed_readings
    as (H1 & H2 & _ & H3 & _).
  split; [|split].
  - apply (H1 [0xFF1F; 0xFF1F] (str "a1")
             {| resultArray := [emptyPair [0xFF1F]; emptyPair [0xFF1F]];
                readingIndex := 0; textIndex := 2 |}).
    + reflexivity.
    + vm_compute. lia.
  - apply H2. vm_compute. lia.
  - apply (H3 [0x4F60; 0x597D]); reflexivity.
Defined.

End Aligner.


(* ===================================================================== *)
(** ** Headwords *)
(* ===================================================================== *)

Section Headwords.
Import EntryParser.

(** C4: [parseHeadwords] does not throw on a group without a reading.
    The guard [!text || !readings] tests the rest element of the
    destructuring, an array, which is truthy even when empty: every
    non-empty headword string without colon and comma is returned as one
    headword with no reading at all, as for the two ideographs of the
    claim's example.  A group with a reading gives the text and the
    reading, inner spaces kept. *)
Theorem parseHeadwords_accepts_missing_reading :
  (∀ headword : jsstring,
      headword ≠ [] → 0x2C ∉ headword → 0x3A ∉ headword →
      parseHeadwords headword
      = Ok [ {| Headword.text := headword; Headword.readings := [] |} ])
  ∧ (∀ text reading : jsstring,
      text ≠ [] → 0x2C ∉ text → 0x3A ∉ text →
      0x2C ∉ reading → 0x3A ∉ reading →
      parseHeadwords (text ++ str ":" ++ reading)
      = Ok [ {| Headword.text := text; Headword.readings := [reading] |} ])
  ∧ parseHeadwords [0x98F2; 0x8336]
    = Ok [ {| Headword.text := [0x98F2; 0x8336]; Headword.readings := [] |} ]
  ∧ parseHeadwords ([0x98F2; 0x8336] ++ str ":jam2 caa4")
    = Ok [ {| Headword.text := [0x98F2; 0x8336];
              Headword.readings := [str "jam2 caa4"] |} ].
Proof.
  split_and!; [| |reflexivity..].
  - intros headword Hne Hcomma Hcolon.
    unfold parseHeadwords.
    change (str ",") with [0x2C]. rewrite split_char_none by done.
    cbn [mapResult]. unfold parseHeadword.
    change (str ":") with [0x3A]. rewrite split_char_none by done.
    cbn [lookup list_lookup tail truthy truthyArray negb orb default].
    apply nonEmpty_true in Hne. rewrite Hne. reflexivity.
  - intros text reading Hne Hcomma Hcolon Hcomma' Hcolon'.
    unfold parseHeadwords. change (str ":") with [0x3A]. cbn [app].
    change (str ",") with [0x2C].
    rewrite split_char_none
      by (rewrite not_elem_of_app, not_elem_of_cons; split_and!; done).
    cbn [mapResult]. unfold parseHeadword. change (str ":") with [0x3A].
    rewrite split_char_app, split_char_none by done.
    cbn [lookup list_lookup tail truthy truthyArray negb orb default].
    apply nonEmpty_true in Hne. rewrite Hne. reflexivity.
Qed.

Lemma parseHeadwords_accepts_missing_reading_witness :
  parseHeadwords (str "abc")
  = Ok [ {| Headword.text := str "abc"; Headword.readings := [] |} ]
  ∧ parseHeadwords (str "abc" ++ str ":" ++ str "aa1 bi1 si1")
    = Ok [ {| Headword.text := str "abc";
              Headword.readings := [str "aa1 bi1 si1"] |} ].
Proof.
  destruct parseHeadwords_accepts_missing_reading as (H1 & H2 & _).
  split.
  - apply H1; [discriminate | by_decide..].
  - apply H2; [discriminate | by_decide..].
Defined.

End Headwords.


(* ===================================================================== *)
(** ** Language blocks *)
(* ===================================================================== *)

Section LanguageBlocks.
Import Constants EntryParser.

Lemma LANGUAGES_DATA_lookup_None l :
  LANGUAGES_DATA !! l = None ↔ l ∉ LanguageArray.
Proof.
  unfold LANGUAGES_DATA. cbv zeta. rewrite <- not_elem_of_list_to_map.
  reflexivity.
Qed.

Lemma prototypeKeys_existsb l :
  existsb (eqStr l) Object.prototypeKeys = true ↔ l ∈ Object.prototypeKeys.
Proof.
  rewrite existsb_exists. split.
  - intros (x & Hin & Heq). apply bool_decide_eq_true in Heq. subst x.
    by apply list_elem_of_In.
  - intros Hin. exists l. split; [by apply list_elem_of_In|].
    by apply bool_decide_eq_true.
Qed.

(** [LANGUAGES_DATA[code]] is truthy for the codes of the enumeration and
    for the property names every object inherits. *)
Lemma truthyAt_LANGUAGES_DATA l :
  Object.truthyAt LANGUAGES_DATA l = true
  ↔ l ∈ LanguageArray ∨ l ∈ Object.prototypeKeys.
Proof.
  unfold Object.truthyAt, Object.get.
  destruct (LANGUAGES_DATA !! l) as [info|] eqn:Hl.
  - split; [intros _; left|done].
    destruct (decide (l ∈ LanguageArray)) as [|Hn]; [done|].
    apply LANGUAGES_DATA_lookup_None in Hn. congruence.
  - apply LANGUAGES_DATA_lookup_None in Hl.
    destruct (existsb (eqStr l) Object.prototypeKeys) eqn:Hp.
    + apply prototypeKeys_existsb in Hp. tauto.
    + split; [done|]. intros [?|Hin]; [done|].
      apply prototypeKeys_existsb in Hin. congruence.
Qed.

Lemma LanguageArray_shape l :
  l ∈ LanguageArray →
  l ≠ [] ∧ (0x3A ∉ l) ∧ (0x0A ∉ l)
  ∧ existsb (eqStr l) Object.prototypeKeys = false.
Proof.
  unfold LanguageArray. intros H.
  repeat (apply elem_of_cons in H as [-> | H];
          [split_and!; [discriminate | by_decide | by_decide | reflexivity]|]).
  by apply elem_of_nil in H.
Qed.

(** A flush with a recognized code and a non-empty buffer appends one
    segment to the list of that code. *)
Lemma addCurrentLangData_push m (l d : jsstring) :
  existsb (eqStr l) Object.prototypeKeys = false → l ≠ [] → d ≠ [] →
  addCurrentLangData
    {| languageData := m; currentLang := l; currentLangData := d |}
  = Ok {| languageData := <[l := default [] (m !! l) ++ [trim d]]> m;
          currentLang := []; currentLangData := [] |}.
Proof.
  intros Hp Hl Hd. apply nonEmpty_true in Hl, Hd.
  unfold addCurrentLangData, Object.truthyAt, Object.get.
  cbn [currentLang currentLangData languageData]. rewrite Hl, Hd.
  cbn [negb]. destruct (m !! l) as [arr|] eqn:Hm.
  - cbn [negb]. by rewrite Hm.
  - rewrite Hp. cbn [negb]. rewrite lookup_insert_eq.
    by rewrite insert_insert_eq.
Qed.

Lemma addCurrentLangData_no_lang m (d : jsstring) :
  addCurrentLangData
    {| languageData := m; currentLang := []; currentLangData := d |}
  = Ok {| languageData := m; currentLang := []; currentLangData := d |}.
Proof. done. Qed.

(** A line that opens with a code of the enumeration and a colon flushes
    the buffer and opens that code with the trimmed rest of the line. *)
Lemma languageLine_language st (l a : jsstring) :
  l ∈ LanguageArray →
  languageLine st (l ++ 0x3A :: a)
  = st' ← addCurrentLangData st;
    Ok {| languageData := languageData st'; currentLang := l;
          currentLangData := trim a |}.
Proof.
  intros Hl. destruct (LanguageArray_shape l Hl) as (_ & Hcolon & _ & _).
  unfold languageLine. change (str ":") with [0x3A].
  rewrite split_char_app by done. cbn [lookup list_lookup toStr].
  assert (includes [0x3A] (l ++ 0x3A :: a) = true) as ->
    by apply (includes_app_r [0x3A] l a).
  cbn [negb].
  assert (Object.truthyAt LANGUAGES_DATA l = true) as ->
    by (apply truthyAt_LANGUAGES_DATA; by left).
  cbn [negb].
  rewrite (cons_middle 0x3A l a), app_assoc, replaceFirst_prefix. done.
Qed.

Lemma languageLines_app st pre post :
  languageLines st (pre ++ post)
  = st' ← languageLines st pre; languageLines st' post.
Proof.
  revert st. induction pre as [|line pre IH]; intros st; [done|].
  cbn [app languageLines].
  destruct (languageLine st line) as [st1|e]; [|done].
  cbn [mbind result_bind]. apply IH.
Qed.

(** Where the guard of the loop does hold: a line with a colon whose prefix
    is neither a code of the enumeration nor an inherited property name
    makes [parseLanguageData] throw, with [ParseError] unless an earlier
    line has thrown already. *)
Lemma parseLanguageData_unknown_code text pre line post :
  split LF text = pre ++ line :: post →
  includes (str ":") line = true →
  let code := toStr (split (str ":") line !! 0%nat) in
  code ∉ LanguageArray → code ∉ Object.prototypeKeys →
  throws (parseLanguageData text) = true
  ∧ ∀ st, languageLines langStart pre = Ok st →
          parseLanguageData text = Throw (ParseError (InvalidLanguage code)).
Proof.
  intros Hsplit Hcolon code Hlang Hproto.
  assert (Object.truthyAt LANGUAGES_DATA code = false) as Hfalsy.
  { apply not_true_iff_false. rewrite truthyAt_LANGUAGES_DATA. tauto. }
  assert (∀ st, languageLine st line
                = Throw (ParseError (InvalidLanguage code))) as Hline.
  { intros st. unfold languageLine. fold code. by rewrite Hcolon, Hfalsy. }
  unfold parseLanguageData. rewrite Hsplit, languageLines_app.
  cbn [languageLines].
  destruct (languageLines langStart pre) as [st|e]; cbn [mbind result_bind].
  - rewrite Hline. cbn. split; [done|]. by intros ? _.
  - split; [done|]. intros ? [=].
Qed.

(** C5: the guard [!LANGUAGES_DATA[matchedLang]] does not reject a prefix
    that names a property every object inherits.  On the one-line block
    ["toString:"] nothing is thrown and nothing is recorded; after a
    language line the same line makes the code vanish while the earlier
    segment is kept; with text after the colon the flush calls [push] on
    the inherited function, which is a [TypeError], not a [ParseError]. *)
Theorem parseLanguageData_inherited_name_not_rejected :
  (str "toString" ∉ LanguageArray)
  ∧ parseLanguageData (str "toString:") = Ok ∅
  ∧ parseLanguageData (str "eng:hello" ++ LF ++ str "toString:")
    = Ok (<[str "eng" := [str "hello"]]> ∅)
  ∧ parseLanguageData (str "toString:hello") = Throw (TypeError NotAFunction)
  ∧ isParseError (parseLanguageData (str "toString:hello")) = false.
Proof. split_and!; [by_decide | reflexivity..]. Qed.

Lemma segmentsTrimmed_empty : segmentsTrimmed ∅.
Proof. intros k segs Hk. by rewrite lookup_empty in Hk. Qed.

Lemma segmentsTrimmed_push m (l d : jsstring) arr :
  segmentsTrimmed m → (arr = [] ∨ m !! l = Some arr) →
  segmentsTrimmed (<[l := arr ++ [trim d]]> m).
Proof.
  intros Hm Harr k segs Hk.
  destruct (decide (k = l)) as [->|Hne].
  - rewrite lookup_insert_eq in Hk. injection Hk as <-.
    split; [by destruct arr|].
    apply Forall_app. split; [|by apply Forall_singleton, trim_idemp].
    destruct Harr as [->|Hl]; [done|]. by apply (Hm l arr).
  - rewrite lookup_insert_ne in Hk by done. by apply (Hm k).
Qed.

Lemma addCurrentLangData_trimmed st st' :
  addCurrentLangData st = Ok st' →
  segmentsTrimmed (languageData st) → segmentsTrimmed (languageData st').
Proof.
  unfold addCurrentLangData, Object.truthyAt, Object.get.
  destruct (nonEmpty (currentLang st)); cbn [negb]; [|by intros [= <-]].
  destruct (nonEmpty (currentLangData st)); cbn [negb]; [|by intros [= <-]].
  destruct (languageData st !! currentLang st) as [arr|] eqn:Hl.
  - cbn [negb]. rewrite Hl. intros [= <-] Hm. cbn.
    apply segmentsTrimmed_push; auto.
  - destruct (existsb _ _); cbn [negb].
    + by rewrite Hl.
    + rewrite lookup_insert_eq. intros [= <-] Hm. cbn.
      rewrite insert_insert_eq.
      apply (segmentsTrimmed_push _ _ _ []); auto.
Qed.

Lemma languageLine_trimmed st line st' :
  languageLine st line = Ok st' →
  segmentsTrimmed (languageData st) → segmentsTrimmed (languageData st').
Proof.
  unfold languageLine.
  destruct (includes _ line); cbn [negb]; [|by intros [= <-]].
  destruct (Object.truthyAt LANGUAGES_DATA _); cbn [negb]; [|done].
  destruct (addCurrentLangData st) as [st1|e] eqn:Hflush; [|done].
  cbn [mbind result_bind]. intros [= <-] Hm. cbn.
  by eapply addCurrentLangData_trimmed.
Qed.

Lemma languageLines_trimmed lines : ∀ st st',
  languageLines st lines = Ok st' →
  segmentsTrimmed (languageData st) → segmentsTrimmed (languageData st').
Proof.
  induction lines as [|line lines IH]; intros st st'; [by intros [= <-]|].
  cbn [languageLines].
  destruct (languageLine st line) as [st1|e] eqn:Hline; [|done].
  cbn [mbind result_bind]. intros Hrest Hm.
  eapply IH; [done|]. by eapply languageLine_trimmed.
Qed.

(** C10: the guard of the flush tests the buffer before it is trimmed, so
    a buffer of white space only is pushed as an empty segment: the block
    of the line [eng:] and an empty line after it gives the empty string as
    the one segment of [eng].  What does hold of every returned value:
    each key has at least one segment and no segment has white space at
    either end; and a block that is one line, a code of the enumeration
    with nothing but white space after the colon, gives no segment. *)
Theorem parseLanguageData_blank_buffer_pushed :
  parseLanguageData (str "eng:" ++ LF) = Ok (<[str "eng" := [[]]]> ∅)
  ∧ (∀ text m, parseLanguageData text = Ok m → segmentsTrimmed m)
  ∧ (∀ l a : jsstring,
      l ∈ LanguageArray → 0x0A ∉ a → trim a = [] →
      parseLanguageData (l ++ str ":" ++ a) = Ok ∅).
Proof.
  split_and!; [reflexivity| |].
  - intros text m. unfold parseLanguageData.
    destruct (languageLines langStart (split LF text)) as [st|e] eqn:Hlines;
      [|done].
    cbn [mbind result_bind].
    destruct (addCurrentLangData st) as [st1|e] eqn:Hflush; [|done].
    cbn [mbind result_bind]. intros [= <-].
    eapply addCurrentLangData_trimmed; [done|].
    eapply languageLines_trimmed; [done|]. apply segmentsTrimmed_empty.
  - intros l a Hl Ha Hblank.
    destruct (LanguageArray_shape l Hl) as (Hlne & _ & Hlnl & _).
    unfold parseLanguageData. change (str ":") with [0x3A]. cbn [app].
    unfold LF. rewrite split_char_none
      by (rewrite not_elem_of_app, not_elem_of_cons; split_and!; done).
    cbn [languageLines]. rewrite languageLine_language by done.
    unfold langStart. rewrite addCurrentLangData_no_lang.
    cbn [mbind result_bind languageData]. rewrite Hblank.
    unfold addCurrentLangData. cbn.
    apply nonEmpty_true in Hlne. by rewrite Hlne.
Qed.

Lemma parseLanguageData_blank_buffer_pushed_witness :
  segmentsTrimmed (<[str "eng" := [[]]]> ∅)
  ∧ parseLanguageData (str "yue" ++ str ":" ++ str "  ") = Ok ∅.
Proof.
  destruct parseLanguageData_blank_buffer_pushed as (_ & H2 & H3).
  split.
  - apply (H2 (str "eng:" ++ LF)). reflexivity.
  - apply H3; first [by_decide | reflexivity].
Defined.

End LanguageBlocks.


(* ===================================================================== *)
(** ** Tags *)
(* ===================================================================== *)

Section Tags.
Import EntryParser.

Lemma indexOf_char_bounds c (s : jsstring) :
  (-1 ≤ indexOf [c] s ≤ Z.of_nat (length s))%Z.
Proof.
  induction s as [|x s IH]; cbn [indexOf startsWith length]; [lia|].
  rewrite andb_true_r. destruct (c =? x); [lia|].
  destruct (indexOf [c] s <? 0)%Z eqn:E; lia.
Qed.

Lemma indexOf_char_found c (s : jsstring) :
  c ∈ s → (0 ≤ indexOf [c] s)%Z.
Proof.
  induction s as [|x s IH]; intros Hin; [by apply elem_of_nil in Hin|].
  cbn [indexOf startsWith]. rewrite andb_true_r.
  destruct (N.eqb_spec c x) as [->|Hne]; [lia|].
  apply elem_of_cons in Hin as [?|Hin]; [done|].
  specialize (IH Hin).
  destruct (indexOf [c] s <? 0)%Z eqn:E; lia.
Qed.

Lemma relativeIndex_inside len k :
  (0 ≤ k ≤ Z.of_nat len)%Z → relativeIndex len k = Z.to_nat k.
Proof.
  intros Hk. unfold relativeIndex.
  destruct (Z.ltb_spec k 0); [lia|]. by rewrite Z.min_l by lia.
Qed.

(** For a fragment with a colon, [indexOf] and the two [slice] calls cut
    where the specification says. *)
Lemma slice_at_first c (s : jsstring) :
  c ∈ s →
  slice s 0 (indexOf [c] s) = beforeFirst c s
  ∧ sliceFrom s (indexOf [c] s + 1) = afterFirst c s.
Proof.
  intros Hin.
  pose proof (indexOf_char_found c s Hin) as Hpos.
  pose proof (indexOf_char_bounds c s) as Hb.
  assert ((indexOf [c] s < Z.of_nat (length s))%Z
          ∧ take (Z.to_nat (indexOf [c] s)) s = beforeFirst c s
          ∧ drop (S (Z.to_nat (indexOf [c] s))) s = afterFirst c s)
    as (Hlt & Htake & Hdrop).
  { clear Hpos Hb. induction s as [|x s IH]; [by apply elem_of_nil in Hin|].
    cbn [indexOf startsWith beforeFirst afterFirst length].
    rewrite andb_true_r, (N.eqb_sym x c).
    destruct (N.eqb_spec c x) as [->|Hne].
    { split_and!; [lia | done | done]. }
    apply elem_of_cons in Hin as [?|Hin]; [done|].
    destruct (IH Hin) as (IH0 & IH1 & IH2).
    pose proof (indexOf_char_found c s Hin) as Hpos.
    destruct (Z.ltb_spec (indexOf [c] s) 0); [lia|].
    replace (Z.to_nat (indexOf [c] s + 1))
      with (S (Z.to_nat (indexOf [c] s))) by lia.
    cbn [take drop]. rewrite IH1. split_and!; [lia | done | done]. }
  unfold slice, sliceFrom.
  rewrite !relativeIndex_inside by lia.
  cbn [Z.to_nat drop]. rewrite Nat.sub_0_r.
  replace (Z.to_nat (indexOf [c] s + 1))
    with (S (Z.to_nat (indexOf [c] s))) by lia.
  done.
Qed.

Lemma parseTag_spec (fragment : jsstring) :
  0x3A ∈ stripParens fragment → parseTag fragment = tagOfFragment_spec fragment.
Proof.
  intros Hin. unfold parseTag, tagOfFragment_spec.
  change (str ":") with [0x3A].
  destruct (slice_at_first _ _ Hin) as [-> ->]. done.
Qed.

End Tags.


(* ===================================================================== *)
(** ** Entries and senses *)
(* ===================================================================== *)

Section Entries.
Import Text EntryParser Sample Padding Numerals.

Lemma mapResult_Forall2 {A B} (f : A → result B) l l' :
  mapResult f l = Ok l' → Forall2 (λ a b, f a = Ok b) l l'.
Proof.
  revert l'. induction l as [|a l IH]; intros l'; cbn [mapResult].
  - intros [= <-]. constructor.
  - destruct (f a) as [b|e] eqn:Hfa; [|done]. cbn [mbind result_bind].
    destruct (mapResult f l) as [bs|e]; [|done]. cbn [mbind result_bind].
    intros [= <-]. constructor; [done | by apply IH].
Qed.

Lemma parseTags_Ok entryLines tags entryLines' :
  parseTags entryLines = Ok (tags, entryLines') →
  entryLines' = tail entryLines.
Proof.
  unfold parseTags. intros H.
  repeat match type of H with
         | match ?x with _ => _ end = _ => destruct x; try discriminate
         | (if ?b then _ else _) = _ => destruct b; try discriminate
         end.
  by injection H as _ <-.
Qed.

(** What a successful [parseEntry] is made of. *)
Lemma parseEntry_Ok entry e :
  parseEntry entry = Ok e →
  let body := join LF (tail (split LF (CsvRecord.entry entry))) in
  parseInt (CsvRecord.id entry) = Some (DictionaryEntry.id e)
  ∧ mapResult parseSense (splitFullLine (str "----") body)
    = Ok (DictionaryEntry.senses e).
Proof.
  intros H body. unfold parseEntry in H.
  destruct (parseInt (CsvRecord.id entry)) as [id|]; [|done].
  destruct (parseHeadwords (CsvRecord.headword entry)) as [hs|]; [|done].
  cbn [mbind result_bind] in H.
  destruct (parseTags (split LF (CsvRecord.entry entry)))
    as [[tags lines']|] eqn:Htags; [|done].
  cbn [mbind result_bind] in H.
  apply parseTags_Ok in Htags as ->. fold body in H. rewrite map_id in H.
  destruct (mapResult parseSense (splitFullLine (str "----") body))
    as [senses|]; [|done].
  cbn [mbind result_bind] in H. by injection H as <-.
Qed.

Lemma parseSense_Ok block sense :
  parseSense block = Ok sense →
  let stripped := replaceFirst (str "<explanation>" ++ LF) block in
  mapResult parseLanguageData (tail (splitFullLine (str "<eg>") stripped))
  = Ok (Sense.egs sense).
Proof.
  intros H stripped. unfold parseSense in H. fold stripped in H.
  destruct (splitFullLine (str "<eg>") stripped) as [|expl egs]; [done|].
  destruct (parseLanguageData expl); [|done]. cbn [mbind result_bind] in H.
  cbn [tail].
  destruct (mapResult parseLanguageData egs); [|done].
  cbn [mbind result_bind] in H. by injection H as <-.
Qed.

Lemma parseEntry_sampleRow :
  parseEntry (sampleRow (str "42")) = Ok (sampleEntry 42).
Proof. vm_compute. reflexivity. Qed.


(** *** The id field

    What [parseInt] makes of an id field is read off the shape of the
    field: white space, an optional sign, and then a numeral or not. *)

Lemma trimStart_blank (ws s : jsstring) :
  blank ws → trimStart (ws ++ s) = trimStart s.
Proof. induction 1 as [|c ws Hc _ IH]; [done|]. cbn. by rewrite Hc. Qed.

















End Entries.


(* ===================================================================== *)
(** ** Further properties of the tokenizer *)
(* ===================================================================== *)

Section TokenizerMore.
Import Text Cantonese Tokens.

Lemma surrogate_not_ws c :
  isHighSurrogate c || isLowSurrogate c = true → isWhiteSpace c = false.
Proof.
  unfold isHighSurrogate, isLowSurrogate, isWhiteSpace, isLineTerminator.
  intros H. to_prop. lia.
Qed.

Lemma surrogate_not_alnum c :
  isHighSurrogate c || isLowSurrogate c = true → isAsciiAlnum c = false.
Proof.
  intros H. destruct (isAsciiAlnum c) eqn:E; [|done].
  destruct (alnum_cases c E) as (Hh & Hl & _). by rewrite Hh, Hl in H.
Qed.

Lemma iterate_codePointStrings (s : jsstring) :
  Forall (λ ch, isCodePointString ch = true) (iterate s).
Proof.
  remember (length s) as n eqn:Hn. revert s Hn.
  induction n as [n IH] using lt_wf_ind. intros s Hn.
  destruct s as [|h [|l t]]; [constructor | by repeat constructor |].
  rewrite iterate_cons_cons.
  destruct (isHighSurrogate h && isLowSurrogate l) eqn:E.
  - constructor; [done|]. apply (IH (length t)); [simpl in Hn; lia | done].
  - constructor; [done|]. apply (IH (length (l :: t))); [simpl in *; lia|done].
Qed.

Lemma concat_iterate (s : jsstring) : concat (iterate s) = s.
Proof.
  remember (length s) as n eqn:Hn. revert s Hn.
  induction n as [n IH] using lt_wf_ind. intros s Hn.
  destruct s as [|h [|l t]]; [done | done |].
  rewrite iterate_cons_cons.
  destruct (isHighSurrogate h && isLowSurrogate l).
  - cbn [concat app]. by rewrite (IH (length t)) by (simpl in Hn; lia || done).
  - cbn [concat app].
    by rewrite (IH (length (l :: t))) by (simpl in *; lia || done).
Qed.

Lemma codePointString_alnum ch :
  isCodePointString ch = true → testAlnum ch = true →
  ∃ c, ch = [c] ∧ isAsciiAlnum c = true.
Proof.
  destruct ch as [|h [|l [|? ?]]]; try done.
  - intros _ H. exists h. split; [done|].
    unfold testAlnum in H. cbn in H. by rewrite orb_false_r in H.
  - cbn [isCodePointString]. intros Hs H. apply andb_true_iff in Hs as [Hh Hl].
    unfold testAlnum in H. cbn [existsb] in H.
    rewrite (surrogate_not_alnum h), (surrogate_not_alnum l) in H; try done.
    + by rewrite Hl, orb_true_r.
    + by rewrite Hh.
Qed.

Lemma trim_codePointString ch :
  isCodePointString ch = true → trim ch = stripWhiteSpace ch.
Proof.
  destruct ch as [|h [|l [|? ?]]]; try done.
  - intros _. unfold trim, trimEnd, stripWhiteSpace. cbn.
    destruct (isWhiteSpace h) eqn:E; cbn; [done|]. by rewrite E.
  - cbn [isCodePointString]. intros Hs. apply andb_true_iff in Hs as [Hh Hl].
    assert (isWhiteSpace h = false) as Eh
      by (apply surrogate_not_ws; by rewrite Hh).
    assert (isWhiteSpace l = false) as El
      by (apply surrogate_not_ws; by rewrite Hl, orb_true_r).
    rewrite trim_no_ws by (by repeat constructor).
    unfold stripWhiteSpace. cbn [List.filter]. by rewrite Eh, El.
Qed.

Lemma alnum_run_trim (cur : jsstring) :
  Forall (λ c, isAsciiAlnum c = true) cur → trim cur = cur.
Proof.
  intros H. apply trim_no_ws. eapply Forall_impl; [exact H|].
  intros c Hc. by apply alnum_cases.
Qed.

Lemma stripWhiteSpace_app (a b : jsstring) :
  stripWhiteSpace (a ++ b) = stripWhiteSpace a ++ stripWhiteSpace b.
Proof. apply List.filter_app. Qed.

(** One turn of the loop keeps every code unit that is not white space, in
    order, in the pushed tokens and the open run. *)
Lemma splitStep_concat R cur ch :
  isCodePointString ch = true →
  Forall (λ c, isAsciiAlnum c = true) cur →
  concat (map trim (splitStep (R, cur) ch).1) ++ (splitStep (R, cur) ch).2
  = concat (map trim R) ++ cur ++ stripWhiteSpace ch
  ∧ Forall (λ c, isAsciiAlnum c = true) (splitStep (R, cur) ch).2.
Proof.
  intros Hch Hcur. unfold splitStep.
  destruct (testAlnum ch) eqn:Hal.
  - destruct (codePointString_alnum ch Hch Hal) as (c & -> & Hc).
    destruct (alnum_cases c Hc) as (_ & _ & Hws).
    assert (stripWhiteSpace [c] = [c]) as ->
      by (unfold stripWhiteSpace; cbn; by rewrite Hws).
    assert (Forall (λ c0, isAsciiAlnum c0 = true) [c]) as Hc'
      by (by apply Forall_singleton).
    repeat match goal with
           | |- context [if ?b then _ else _] => destruct b
           end; cbn [fst snd].
    + rewrite map_app, concat_app. cbn [map concat].
      rewrite (alnum_run_trim cur Hcur), app_nil_r, <- !app_assoc. done.
    + split; [done | by apply Forall_app].
    + split; [done | by apply Forall_app].
  - assert (∀ b : bool,
      (if b then
         (let '(resultArray, current) :=
            if nonEmpty cur then (R ++ [cur], []) else (R, cur) in
          (resultArray ++ [ch], current))
       else
         (let '(resultArray, current) :=
            if nonEmpty cur then (R ++ [cur], []) else (R, cur) in
          (resultArray ++ [ch], current)))
      = (let '(resultArray, current) :=
            if nonEmpty cur then (R ++ [cur], []) else (R, cur) in
          (resultArray ++ [ch], current))) as -> by (by intros []).
    rewrite <- (trim_codePointString ch Hch).
    destruct cur as [|x cur']; cbn [nonEmpty fst snd].
    + rewrite map_app, concat_app. cbn [map concat].
      by rewrite !app_nil_r.
    + rewrite !map_app, !concat_app. cbn [map concat].
      rewrite (alnum_run_trim _ Hcur), !app_nil_r, <- !app_assoc.
      split; [done | constructor].
Qed.

Lemma foldl_splitStep_concat chars : ∀ R cur,
  Forall (λ ch, isCodePointString ch = true) chars →
  Forall (λ c, isAsciiAlnum c = true) cur →
  concat (map trim (foldl splitStep (R, cur) chars).1)
    ++ (foldl splitStep (R, cur) chars).2
  = concat (map trim R) ++ cur ++ stripWhiteSpace (concat chars)
  ∧ Forall (λ c, isAsciiAlnum c = true) (foldl splitStep (R, cur) chars).2.
Proof.
  induction chars as [|ch chars IH]; intros R cur Hchars Hcur.
  - cbn. by rewrite app_nil_r.
  - inversion_clear Hchars as [|? ? Hch Hchars'].
    cbn [foldl concat].
    destruct (splitStep_concat R cur ch Hch Hcur) as [Heq Hal].
    destruct (splitStep (R, cur) ch) as [R1 cur1]. cbn [fst snd] in *.
    destruct (IH R1 cur1 Hchars' Hal) as [IH1 IH2].
    split; [|done].
    rewrite IH1, stripWhiteSpace_app, !app_assoc.
    f_equal. by rewrite <- app_assoc.
Qed.

Lemma concat_filter_nonEmpty (l : list jsstring) :
  concat (List.filter nonEmpty l) = concat l.
Proof.
  induction l as [|x l IH]; [done|]. cbn [List.filter].
  destruct x; cbn; [done | by rewrite IH].
Qed.

Lemma splitFinish_concat R (cur : jsstring) :
  Forall (λ c, isAsciiAlnum c = true) cur →
  concat (splitFinish (R, cur)) = concat (map trim R) ++ cur.
Proof.
  intros Hcur. unfold splitFinish. rewrite concat_filter_nonEmpty.
  destruct cur as [|x cur']; cbn [nonEmpty]; [by rewrite app_nil_r|].
  rewrite map_app, concat_app. cbn [map concat].
  by rewrite (alnum_run_trim _ Hcur), app_nil_r.
Qed.

Lemma concat_splitString (input : jsstring) :
  concat (splitString input) = stripWhiteSpace input.
Proof.
  unfold splitString.
  destruct (foldl_splitStep_concat (iterate input) [] []
              (iterate_codePointStrings input) (List.Forall_nil _))
    as [Heq Hal].
  destruct (foldl splitStep ([], []) (iterate input)) as [R cur].
  cbn [fst snd] in *. rewrite splitFinish_concat by done.
  by rewrite Heq, concat_iterate.
Qed.

(** X1: the tokens of [splitString], put end to end, are the input without
    its white-space code units: nothing else is lost, added or moved. *)
Theorem splitString_concat (input : jsstring) :
  concat (splitString input) = stripWhiteSpace input.
Proof. apply concat_splitString. Qed.

Lemma concat_nil_nonEmpty (l : list jsstring) :
  Forall (λ t, nonEmpty t = true) l → concat l = [] → l = [].
Proof. destruct 1 as [|[|? ?] ? ? ?]; done. Qed.

Lemma stripWhiteSpace_nil (s : jsstring) :
  stripWhiteSpace s = [] ↔ Forall (λ c, isWhiteSpace c = true) s.
Proof.
  unfold stripWhiteSpace. induction s as [|c s IH]; [done|].
  cbn [List.filter]. destruct (isWhiteSpace c) eqn:E; cbn [negb].
  - rewrite IH. split; [by constructor | by inversion 1].
  - split; [done|]. inversion 1; congruence.
Qed.

(** X2: [splitString] returns no token exactly on the inputs that hold
    nothing but white space, the empty string among them. *)
Theorem splitString_nil_iff (input : jsstring) :
  splitString input = [] ↔ Forall (λ c, isWhiteSpace c = true) input.
Proof.
  rewrite <- stripWhiteSpace_nil, <- concat_splitString. split.
  - by intros ->.
  - apply concat_nil_nonEmpty, splitString_nonEmpty.
Qed.

Lemma splitString_nil_iff_witness :
  splitString (str "  ") = [] ∧ Forall (λ c, isWhiteSpace c = true) [].
Proof.
  split.
  - apply splitString_nil_iff. by repeat constructor.
  - apply splitString_nil_iff. reflexivity.
Defined.

Lemma splitStep_symbol R cur c :
  isAsciiAlnum c = false →
  splitStep (R, cur) [c]
  = ((if nonEmpty cur then R ++ [cur] else R) ++ [[c]], []).
Proof.
  intros Hc. unfold splitStep, testAlnum. cbn [existsb]. rewrite Hc.
  cbn [orb]. destruct cur; by destruct (includesStr _ _).
Qed.

(** X3: a code unit that is neither a letter, a digit nor half of a
    surrogate pair cuts the input in two: the tokens are those of the part
    before it, then the code unit as a token of its own unless it is white
    space, then those of the part after it. *)
Theorem splitString_symbol (u v : jsstring) (c : N) :
  isAsciiAlnum c = false →
  isHighSurrogate c = false → isLowSurrogate c = false →
  splitString (u ++ c :: v)
  = splitString u ++ (if isWhiteSpace c then [] else [[c]]) ++ splitString v.
Proof.
  intros Hal Hh Hl. unfold splitString.
  rewrite iterate_app_not_low, iterate_cons_not_high by done.
  rewrite foldl_app. cbn [foldl].
  destruct (foldl splitStep ([], []) (iterate u)) as [R cur].
  rewrite splitStep_symbol by done.
  rewrite <- (app_nil_r (_ ++ [[c]])), foldl_splitStep_prefix.
  destruct (foldl splitStep ([], []) (iterate v)) as [R2 c2].
  cbn [fst snd]. rewrite splitFinish_prefix, app_assoc. f_equal.
  rewrite map_app, List.filter_app. f_equal.
  cbn [map List.filter]. rewrite (trim_codePointString [c]) by done.
  unfold stripWhiteSpace. cbn [List.filter].
  by destruct (isWhiteSpace c).
Qed.

Lemma splitString_symbol_witness :
  splitString (str "nei5" ++ 0x2C :: str "hou2")
  = splitString (str "nei5")
    ++ (if isWhiteSpace 0x2C then [] else [[0x2C]]) ++ splitString (str "hou2").
Proof. apply splitString_symbol; reflexivity. Defined.

Lemma digitThenLetter_snoc (l : jsstring) p c :
  digitThenLetter (l ++ [p; c])
  = digitThenLetter (l ++ [p]) || (isAsciiDigit p && isAsciiLetter c).
Proof.
  induction l as [|x l IH]; [cbn; by rewrite orb_false_r|].
  cbn [app digitThenLetter].
  destruct (l ++ [p; c]) as [|y r] eqn:E1; [by destruct l|].
  destruct (l ++ [p]) as [|y' r'] eqn:E2; [by destruct l|].
  assert (y = y') as <-.
  { destruct l; cbn in E1, E2; congruence. }
  rewrite IH. by rewrite orb_assoc.
Qed.

Lemma openRun_pushed (cur : jsstring) :
  openRun cur = true → nonEmpty cur = true → pushedShape cur = true.
Proof.
  unfold openRun, pushedShape, isRunToken. intros H Hne.
  apply andb_true_iff in H as [-> ->]. by rewrite Hne.
Qed.

Lemma splitStep_shape R cur ch :
  isCodePointString ch = true →
  Forall (λ x, pushedShape x = true) R → openRun cur = true →
  Forall (λ x, pushedShape x = true) (splitStep (R, cur) ch).1
  ∧ openRun (splitStep (R, cur) ch).2 = true.
Proof.
  intros Hch HR Hcur. destruct (testAlnum ch) eqn:Hal.
  - destruct (codePointString_alnum ch Hch Hal) as (c & -> & Hc).
    unfold splitStep. rewrite Hal.
    destruct (0 <? length cur)%nat eqn:Hlen.
    2:{ apply Nat.ltb_ge in Hlen. destruct cur; [|simpl in Hlen; lia].
        cbn [fst snd app]. split; [done|].
        unfold openRun. cbn. by rewrite Hc. }
    destruct (last cur) as [p|] eqn:Hlast.
    2:{ apply last_None in Hlast. by subst cur. }
    apply last_Some in Hlast as [cur' ->].
    cbn [fmap option_fmap option_map toStr].
    unfold testLetter. cbn [existsb]. rewrite !orb_false_r.
    destruct (isAsciiLetter c && negb (isAsciiLetter p)) eqn:Hcut;
      cbn [fst snd app].
    + split.
      * apply Forall_app. split; [done|]. apply Forall_singleton.
        apply openRun_pushed; [done | apply nonEmpty_snoc].
      * unfold openRun. cbn. by rewrite Hc.
    + split; [done|]. unfold openRun in *.
      apply andb_true_iff in Hcur as [Hall Hno].
      rewrite forallb_app, Hall. cbn [forallb]. rewrite Hc. cbn [andb].
      rewrite <- app_assoc. cbn [app].
      rewrite digitThenLetter_snoc.
      apply negb_true_iff in Hno. rewrite Hno. cbn [orb].
      destruct (isAsciiDigit p) eqn:Hd; [|done].
      rewrite (digit_not_letter p Hd) in Hcut. cbn [negb] in Hcut.
      rewrite andb_true_r in Hcut. by rewrite Hcut.
  - assert (∃ c rest, ch = c :: rest) as (c & rest & ->)
      by (destruct ch; [done | eauto]).
    assert (pushedShape (c :: rest) = true) as Hpush.
    { unfold pushedShape. by rewrite Hch, Hal, orb_true_r. }
    assert ((splitStep (R, cur) (c :: rest)).1
            = (if nonEmpty cur then R ++ [cur] else R) ++ [c :: rest]
            ∧ (splitStep (R, cur) (c :: rest)).2 = []) as [-> ->].
    { unfold splitStep. rewrite Hal.
      destruct cur; by destruct (includesStr _ _). }
    split; [|done].
    apply Forall_app. split; [|by apply Forall_singleton].
    destruct (nonEmpty cur) eqn:Hne; [|done].
    apply Forall_app. split; [done|]. apply Forall_singleton.
    by apply openRun_pushed.
Qed.

Lemma foldl_splitStep_shape chars : ∀ R cur,
  Forall (λ ch, isCodePointString ch = true) chars →
  Forall (λ x, pushedShape x = true) R → openRun cur = true →
  Forall (λ x, pushedShape x = true) (foldl splitStep (R, cur) chars).1
  ∧ openRun (foldl splitStep (R, cur) chars).2 = true.
Proof.
  induction chars as [|ch chars IH]; intros R cur Hchars HR Hcur; [done|].
  inversion_clear Hchars as [|? ? Hch Hchars'].
  cbn [foldl].
  destruct (splitStep_shape R cur ch Hch HR Hcur) as [HR1 Hcur1].
  destruct (splitStep (R, cur) ch) as [R1 cur1]. by apply IH.
Qed.

Lemma pushedShape_trim (x : jsstring) :
  pushedShape x = true → nonEmpty (trim x) = true →
  isRunToken (trim x) || isSymbolToken (trim x) = true.
Proof.
  unfold pushedShape. intros H Hne.
  apply orb_true_iff in H as [Hrun|Hsym].
  - assert (trim x = x) as ->; [|by rewrite Hrun].
    unfold isRunToken in Hrun.
    apply andb_true_iff in Hrun as [Hrun _].
    apply andb_true_iff in Hrun as [_ Hall].
    apply alnum_run_trim, Forall_forall. intros c Hc.
    rewrite forallb_forall in Hall. by apply Hall, list_elem_of_In.
  - apply andb_true_iff in Hsym as [Hcp Hal].
    apply orb_true_iff. right. unfold isSymbolToken.
    destruct x as [|h [|l [|? ?]]]; try done.
    + rewrite (trim_codePointString [h] Hcp) in Hne |- *.
      unfold stripWhiteSpace in *. cbn [List.filter] in *.
      destruct (isWhiteSpace h) eqn:E; cbn [negb] in *; [done|].
      cbn [forallb]. by rewrite Hal, E.
    + rewrite (trim_codePointString [h; l] Hcp).
      cbn [isCodePointString] in Hcp.
      apply andb_true_iff in Hcp as [Hh Hl].
      assert (isWhiteSpace h = false) as Eh
        by (apply surrogate_not_ws; by rewrite Hh).
      assert (isWhiteSpace l = false) as El
        by (apply surrogate_not_ws; by rewrite Hl, orb_true_r).
      unfold stripWhiteSpace. cbn [List.filter]. rewrite Eh, El. cbn [negb].
      cbn [isCodePointString forallb]. by rewrite Hh, Hl, Hal, Eh, El.
Qed.

Lemma tokens_shaped (input : jsstring) :
  Forall (λ t, isRunToken t || isSymbolToken t = true) (splitString input).
Proof.
  unfold splitString.
  destruct (foldl_splitStep_shape (iterate input) [] []
              (iterate_codePointStrings input) (List.Forall_nil _) eq_refl)
    as [HR Hcur].
  destruct (foldl splitStep ([], []) (iterate input)) as [R cur].
  cbn [fst snd] in *. unfold splitFinish.
  assert (Forall (λ x, pushedShape x = true)
            (if nonEmpty cur then R ++ [cur] else R)) as Hall.
  { destruct (nonEmpty cur) eqn:Hne; [|done].
    apply Forall_app. split; [done|]. apply Forall_singleton.
    by apply openRun_pushed. }
  apply List.Forall_forall. intros t Ht.
  apply List.filter_In in Ht as [Hin Hne].
  apply List.in_map_iff in Hin as (x & <- & Hx).
  apply pushedShape_trim; [|done].
  rewrite List.Forall_forall in Hall. by apply Hall.
Qed.

(** X4: every token of [splitString] is of one of two shapes: a non-empty
    run of ASCII letters and digits in which no digit stands directly
    before a letter, or a single code point that is neither a letter or
    digit nor white space. *)
Theorem splitString_token_shape (input : jsstring) :
  Forall (λ t, isRunToken t || isSymbolToken t = true) (splitString input).
Proof. apply tokens_shaped. Qed.

End TokenizerMore.


(* ===================================================================== *)
(** ** Further properties of the classifier *)
(* ===================================================================== *)

Section ClassifierMore.
Import Text Cantonese Tokens.

Lemma punctuation_not_hanzi r :
  isPunctuation (Some r) = true → isHanzi (Some r) = false.
Proof.
  unfold isPunctuation, includesStr. intros H.
  apply existsb_exists in H as (x & Hin & Heq).
  apply bool_decide_eq_true in Heq. subst x.
  unfold punctuations in Hin. simpl in Hin.
  repeat (destruct Hin as [<- | Hin]; [reflexivity|]). done.
Qed.

Lemma punctuation_one_unit p : p ∈ punctuations → ∃ c, p = [c].
Proof.
  unfold punctuations. intros H.
  repeat (apply elem_of_cons in H as [-> | H]; [by eexists|]).
  by apply elem_of_nil in H.
Qed.

Lemma isPunctuation_elem_of p :
  isPunctuation (Some p) = true ↔ p ∈ punctuations.
Proof.
  unfold isPunctuation, includesStr. rewrite existsb_exists. split.
  - intros (x & Hin & Heq). apply bool_decide_eq_true in Heq. subst x.
    by apply list_elem_of_In.
  - intros Hin. exists p. split; [by apply list_elem_of_In|].
    by apply bool_decide_eq_true.
Qed.

Lemma alnum_not_CJK c : isAsciiAlnum c = true → inCJKBlocks c = false.
Proof.
  unfold isAsciiAlnum, isAsciiLetter, isAsciiDigit, inCJKBlocks.
  intros H. to_prop. lia.
Qed.

Lemma run_not_hanzi (t : jsstring) :
  Forall (λ c, isAsciiAlnum c = true) t → isHanzi (Some t) = false.
Proof.
  intros Ht. unfold isHanzi, codePoints. cbn [toStr].
  rewrite iterate_alnum by done.
  induction Ht as [|c t Hc _ IH]; [done|].
  cbn. by rewrite (alnum_not_CJK c Hc).
Qed.

(** X5: on every token of [splitString] at most one of [isHanzi],
    [isJyuutping] and [isPunctuation] holds (on other strings the first two
    can hold together). *)
Theorem splitString_classes_exclusive (input : jsstring) :
  Forall (λ t, classesExclusive t = true) (splitString input).
Proof.
  eapply Forall_impl; [apply tokens_shaped|].
  intros t Ht. unfold classesExclusive.
  assert (isJyuutping (Some t) && isPunctuation (Some t) = false) as ->.
  { destruct (isPunctuation (Some t)) eqn:Hp; [|apply andb_false_r].
    by rewrite (punctuation_not_jyutping t Hp). }
  assert (isHanzi (Some t) && isPunctuation (Some t) = false) as ->.
  { destruct (isPunctuation (Some t)) eqn:Hp; [|apply andb_false_r].
    by rewrite (punctuation_not_hanzi t Hp). }
  cbn [negb]. rewrite !andb_true_r. apply negb_true_iff.
  apply orb_true_iff in Ht as [Hrun|Hsym].
  - unfold isRunToken in Hrun.
    apply andb_true_iff in Hrun as [Hrun _].
    apply andb_true_iff in Hrun as [_ Hall].
    rewrite run_not_hanzi; [done|].
    apply Forall_forall. intros c Hc.
    rewrite forallb_forall in Hall. by apply Hall, list_elem_of_In.
  - unfold isSymbolToken in Hsym.
    apply andb_true_iff in Hsym as [Hsym _].
    apply andb_true_iff in Hsym as [_ Hal].
    apply negb_true_iff in Hal. unfold isJyuutping. cbn [toStr].
    rewrite Hal. apply andb_false_r.
Qed.

(** X6: [isStringSentence] holds exactly of the texts that end with one of
    the punctuation marks: each mark is one code unit, the one the test
    looks at. *)
Theorem isStringSentence_iff (text : jsstring) :
  isStringSentence text = true
  ↔ ∃ s p, p ∈ punctuations ∧ text = s ++ p.
Proof.
  unfold isStringSentence. split.
  - destruct (last text) as [c|] eqn:Hlast; [|done].
    apply last_Some in Hlast as [s ->]. cbn [fmap option_fmap option_map].
    intros H. exists s, [c]. split; [|done]. by apply isPunctuation_elem_of.
  - intros (s & p & Hp & ->).
    destruct (punctuation_one_unit p Hp) as [c ->].
    rewrite last_snoc. cbn [fmap option_fmap option_map].
    by apply isPunctuation_elem_of.
Qed.

Lemma isStringSentence_iff_witness :
  isStringSentence (str "hou2" ++ [0xFF1F]) = true.
Proof.
  apply isStringSentence_iff. exists (str "hou2"), [0xFF1F].
  split; [by_decide | reflexivity].
Defined.

Lemma splitStep_nonAlnum R cur ch :
  testAlnum ch = false →
  splitStep (R, cur) ch
  = ((if nonEmpty cur then R ++ [cur] else R) ++ [ch], []).
Proof.
  intros Hal. unfold splitStep. rewrite Hal.
  destruct cur; by destruct (includesStr _ _).
Qed.

Lemma iterate_codePointString ch :
  isCodePointString ch = true → iterate ch = [ch].
Proof.
  destruct ch as [|h [|l [|? ?]]]; try done.
  cbn [isCodePointString]. intros H. rewrite iterate_cons_cons, H. done.
Qed.

(** X7: the tokens are stable: [splitString] applied to one of its own
    tokens gives back that token alone. *)
Theorem splitString_token_stable (input : jsstring) :
  Forall (λ t, splitString t = [t]) (splitString input).
Proof.
  eapply Forall_impl; [apply tokens_shaped|].
  intros t Ht. apply orb_true_iff in Ht as [Hrun|Hsym].
  - unfold isRunToken in Hrun.
    apply andb_true_iff in Hrun as [Hrun Hno].
    apply andb_true_iff in Hrun as [Hne Hall].
    apply negb_true_iff in Hno.
    assert (Forall (λ c, isAsciiAlnum c = true) t) as Hall'.
    { apply Forall_forall. intros c Hc.
      rewrite forallb_forall in Hall. by apply Hall, list_elem_of_In. }
    unfold splitString. rewrite iterate_alnum by done.
    rewrite foldl_splitStep_run by done.
    unfold splitFinish. cbn [app]. rewrite Hne. cbn [app map].
    rewrite alnum_run_trim by done. cbn [List.filter]. by rewrite Hne.
  - unfold isSymbolToken in Hsym.
    apply andb_true_iff in Hsym as [Hsym Hws].
    apply andb_true_iff in Hsym as [Hcp Hal].
    apply negb_true_iff in Hal.
    unfold splitString. rewrite iterate_codePointString by done.
    cbn [foldl]. rewrite splitStep_nonAlnum by done.
    unfold splitFinish. cbn [nonEmpty app map].
    rewrite trim_no_ws.
    + cbn [List.filter]. by destruct t.
    + apply Forall_forall. intros c Hc.
      rewrite forallb_forall in Hws. apply negb_true_iff.
      by apply Hws, list_elem_of_In.
Qed.

End ClassifierMore.


(* ===================================================================== *)
(** ** Further properties of the aligner *)
(* ===================================================================== *)

Section AlignerMore.
Import Text Cantonese Tokens.

Lemma alignLoop_texts ts rs n : ∀ i st st',
  alignLoop ts rs n i st = Ok st' →
  map text (resultArray st) = take (textIndex st) ts →
  map text (resultArray st') = take (textIndex st') ts.
Proof.
  induction n as [|n IH]; intros i st st' Hloop Htexts.
  - by injection Hloop as <-.
  - cbn [alignLoop] in Hloop.
    destruct (alignStep ts rs i st) as [st1|e] eqn:Hstep; [|discriminate].
    cbn [mbind result_bind] in Hloop. eapply IH; [done|].
    apply alignStep_Ok in Hstep as (t & Ht & _ & -> & Hcase).
    rewrite (take_S_r _ _ _ Ht), <- Htexts.
    destruct Hcase as [(r & _ & _ & _ & -> & _)
                      |[(-> & _)|(r & _ & _ & -> & _)]];
      by rewrite map_app.
Qed.

(** X8: the text fields of an accepted alignment are the tokens of the
    text, each once and in order. *)
Theorem parseCantoneseReadings_texts rawText readings res :
  parseCantoneseReadings rawText readings = Ok res →
  map text res = splitString rawText.
Proof.
  unfold parseCantoneseReadings. intros H.
  apply alignTokens_Ok in H as (st & Hloop & -> & _ & _ & Hinv).
  destruct Hinv as (Hti & _).
  apply alignLoop_texts in Hloop; [|done].
  by rewrite Hloop, Hti, firstn_all.
Qed.

Lemma parseCantoneseReadings_texts_witness :
  map text [ pairOf [0x4F60] (str "nei5"); pairOf [0x597D] (str "hou2");
             emptyPair [0xFF1F] ]
  = splitString [0x4F60; 0x597D; 0xFF1F].
Proof.
  apply (parseCantoneseReadings_texts _ (str "nei5 hou2?")). reflexivity.
Defined.

(** X9: with no reading token at all (an empty or blank reading string),
    every text is accepted, each token with the empty reading. *)
Theorem parseCantoneseReadings_no_readings rawText readings :
  splitString readings = [] →
  parseCantoneseReadings rawText readings
  = Ok (map emptyPair (splitString rawText)).
Proof.
  unfold parseCantoneseReadings. intros ->.
  apply (alignTokens_trailing_text [] (splitString rawText) [] []);
    [apply splitString_nonEmpty | reflexivity].
Qed.

Lemma parseCantoneseReadings_no_readings_witness :
  parseCantoneseReadings [0x4F60; 0x597D] (str " ")
  = Ok (map emptyPair (splitString [0x4F60; 0x597D])).
Proof. apply parseCantoneseReadings_no_readings. reflexivity. Defined.

Lemma alignStep_pair ts rs i st t r :
  ts !! textIndex st = Some t → rs !! readingIndex st = Some r →
  nonEmpty t = true → nonEmpty r = true → alignable t r = true →
  alignStep ts rs i st
  = Ok {| resultArray := resultArray st ++ [pairOf t r];
          readingIndex := S (readingIndex st);
          textIndex := S (textIndex st) |}.
Proof.
  intros Ht Hr Htne Hrne Hal. unfold alignable, jyutpingToken in Hal.
  apply andb_true_iff in Hal as [Hcls Hj].
  unfold alignStep. rewrite Ht, Hr. cbn [truthy default].
  rewrite Htne, Hrne, Hj, !andb_true_r. cbn [andb]. by rewrite Hcls.
Qed.

Lemma alignLoop_pairs ts rs :
  Forall2 (λ t r, alignable t r = true) ts rs →
  Forall (λ t, nonEmpty t = true) ts → Forall (λ r, nonEmpty r = true) rs →
  ∀ ts0 rs0 ts1 rs1 i st,
    textIndex st = length ts0 → readingIndex st = length rs0 →
    alignLoop (ts0 ++ ts ++ ts1) (rs0 ++ rs ++ rs1) (length ts) i st
    = Ok {| resultArray := resultArray st ++ zip_with pairOf ts rs;
            readingIndex := (length rs0 + length rs)%nat;
            textIndex := (length ts0 + length ts)%nat |}.
Proof.
  induction 1 as [|t r ts rs Hal _ IH];
    intros Hts Hrs ts0 rs0 ts1 rs1 i st Hti Hri.
  - cbn. rewrite app_nil_r, !Nat.add_0_r, <- Hti, <- Hri. by destruct st.
  - inversion_clear Hts as [|? ? Ht Hts']. inversion_clear Hrs as [|? ? Hr Hrs'].
    cbn [length alignLoop app].
    rewrite (alignStep_pair _ _ i st t r); try done.
    2:{ rewrite Hti. by apply list_lookup_middle. }
    2:{ rewrite Hri. by apply list_lookup_middle. }
    cbn [mbind result_bind].
    rewrite (cons_middle t ts0), (cons_middle r rs0), !app_assoc.
    rewrite <- (app_assoc (ts0 ++ [t])), <- (app_assoc (rs0 ++ [r])).
    rewrite IH; cbn [textIndex readingIndex resultArray]; try done.
    + rewrite <- app_assoc, !length_app. cbn [length app zip_with].
      f_equal. f_equal; lia.
    + rewrite length_app. cbn [length]. lia.
    + rewrite length_app. cbn [length]. lia.
Qed.

(** X10: when the text and the reading have as many tokens and each text
    token (an ideograph or alphanumeric) faces a reading token with a
    letter or digit, the result pairs them off in order. *)
Theorem parseCantoneseReadings_aligned rawText readings :
  Forall2 (λ t r, alignable t r = true)
          (splitString rawText) (splitString readings) →
  parseCantoneseReadings rawText readings
  = Ok (zip_with pairOf (splitString rawText) (splitString readings)).
Proof.
  intros Hall. unfold parseCantoneseReadings, alignTokens.
  pose proof (Forall2_length _ _ _ Hall) as Hlen.
  rewrite <- Hlen, Nat.max_id.
  pose proof (alignLoop_pairs _ _ Hall (splitString_nonEmpty rawText)
                (splitString_nonEmpty readings) [] [] [] [] 0%nat alignStart
                eq_refl eq_refl) as Hloop.
  cbn [app] in Hloop. rewrite !app_nil_r in Hloop. rewrite Hloop.
  cbn [mbind result_bind readingIndex resultArray length Nat.add app].
  by rewrite Hlen, Nat.ltb_irrefl.
Qed.

Lemma parseCantoneseReadings_aligned_witness :
  parseCantoneseReadings ([0x4F60] ++ str "get" ++ [0x5514]) (str "nei5 get1 m4")
  = Ok [ pairOf [0x4F60] (str "nei5"); pairOf (str "get") (str "get1");
         pairOf [0x5514] (str "m4") ].
Proof.
  apply (parseCantoneseReadings_aligned
           ([0x4F60] ++ str "get" ++ [0x5514]) (str "nei5 get1 m4")).
  change (splitString ([0x4F60] ++ str "get" ++ [0x5514]))
    with [[0x4F60]; str "get"; [0x5514]].
  change (splitString (str "nei5 get1 m4"))
    with [str "nei5"; str "get1"; str "m4"].
  repeat constructor.
Defined.

Lemma alignStep_table ts rs i st t r :
  ts !! textIndex st = Some t → rs !! readingIndex st = Some r →
  nonEmpty t = true → nonEmpty r = true →
  alignStep ts rs i st
  = if jyutpingToken r then
      if isHanzi (Some t) || isJyuutping (Some t) then
        Ok {| resultArray := resultArray st ++ [pairOf t r];
              readingIndex := S (readingIndex st);
              textIndex := S (textIndex st) |}
      else
        Ok {| resultArray := resultArray st ++ [emptyPair t];
              readingIndex := readingIndex st;
              textIndex := S (textIndex st) |}
    else
      if isHanzi (Some t) || isJyuutping (Some t) then
        Throw (Error_ (UnexpectedTextReading (Some t) (Some r) i))
      else
        Ok {| resultArray := resultArray st ++ [emptyPair t];
              readingIndex := S (readingIndex st);
              textIndex := S (textIndex st) |}.
Proof.
  intros Ht Hr Htne Hrne. unfold alignStep, jyutpingToken.
  rewrite Ht, Hr. cbn [truthy default]. rewrite Htne, Hrne. cbn [andb].
  rewrite (bool_decide_eq_false_2 (Some r = None)) by done.
  destruct (isJyuutping (Some r)) eqn:Hj.
  - rewrite !andb_true_r.
    destruct (isHanzi (Some t) || isJyuutping (Some t)) eqn:Hcls; [done|].
    apply orb_false_iff in Hcls as [-> ->]. cbn [negb andb orb].
    by rewrite orb_true_r.
  - rewrite !andb_false_r. cbn [orb].
    destruct (isHanzi (Some t) || isJyuutping (Some t)) eqn:Hcls.
    + assert (isPunctuation (Some t) = false) as ->.
      { destruct (isPunctuation (Some t)) eqn:Hp; [|done].
        by rewrite (punctuation_not_hanzi t Hp),
             (punctuation_not_jyutping t Hp) in Hcls. }
      apply orb_true_iff in Hcls as [->| ->]; cbn [negb andb orb];
        by rewrite ?andb_false_r.
    + apply orb_false_iff in Hcls as [-> ->]. cbn [negb andb orb].
      by rewrite orb_true_r.
Qed.

(** X11: with both tokens present, a turn of the loop is decided by two
    tests alone, whether the reading token has a letter or digit and
    whether the text token is an ideograph or has a letter or digit; the
    two punctuation tests never change the outcome. *)
Theorem alignStep_decision ts rs i st t r :
  ts !! textIndex st = Some t → rs !! readingIndex st = Some r →
  nonEmpty t = true → nonEmpty r = true →
  alignStep ts rs i st
  = if jyutpingToken r then
      if isHanzi (Some t) || isJyuutping (Some t) then
        Ok {| resultArray := resultArray st ++ [pairOf t r];
              readingIndex := S (readingIndex st);
              textIndex := S (textIndex st) |}
      else
        Ok {| resultArray := resultArray st ++ [emptyPair t];
              readingIndex := readingIndex st;
              textIndex := S (textIndex st) |}
    else
      if isHanzi (Some t) || isJyuutping (Some t) then
        Throw (Error_ (UnexpectedTextReading (Some t) (Some r) i))
      else
        Ok {| resultArray := resultArray st ++ [emptyPair t];
              readingIndex := S (readingIndex st);
              textIndex := S (textIndex st) |}.
Proof. apply alignStep_table. Qed.

Lemma alignStep_decision_witness :
  alignStep [[0x4F60]] [str "?"] 0 alignStart
  = Throw (Error_ (UnexpectedTextReading (Some [0x4F60]) (Some (str "?")) 0)).
Proof.
  apply (alignStep_decision [[0x4F60]] [str "?"] 0%nat alignStart
           [0x4F60] (str "?")); reflexivity.
Defined.

(** X12: after a prefix that pairs off, an ideograph or alphanumeric text
    token that faces a reading token without letter or digit makes
    [parseCantoneseReadings] throw, naming the two tokens and the index of
    the text token. *)
Theorem parseCantoneseReadings_mismatch
    rawText readings ts1 t ts2 rs1 r rs2 :
  splitString rawText = ts1 ++ t :: ts2 →
  splitString readings = rs1 ++ r :: rs2 →
  Forall2 (λ t r, alignable t r = true) ts1 rs1 →
  isHanzi (Some t) || isJyuutping (Some t) = true →
  jyutpingToken r = false →
  parseCantoneseReadings rawText readings
  = Throw (Error_ (UnexpectedTextReading (Some t) (Some r) (length ts1))).
Proof.
  intros Hts Hrs Hall Hcls Hj.
  pose proof (splitString_nonEmpty rawText) as Htne.
  pose proof (splitString_nonEmpty readings) as Hrne.
  unfold parseCantoneseReadings, alignTokens. rewrite Hts, Hrs in *.
  apply Forall_app in Htne as [Htne1 Htne2].
  apply Forall_app in Hrne as [Hrne1 Hrne2].
  inversion_clear Htne2 as [|? ? Ht _]. inversion_clear Hrne2 as [|? ? Hr _].
  pose proof (Forall2_length _ _ _ Hall) as Hlen.
  rewrite !length_app. cbn [length].
  assert (∃ k, ((length ts1 + S (length ts2))
                `max` (length rs1 + S (length rs2)))%nat
               = (length ts1 + S k)%nat) as [k ->].
  { exists ((length ts1 + S (length ts2))
              `max` (length rs1 + S (length rs2)) - S (length ts1))%nat.
    lia. }
  rewrite alignLoop_add.
  pose proof (alignLoop_pairs ts1 rs1 Hall Htne1 Hrne1 [] [] (t :: ts2)
                (r :: rs2) 0%nat alignStart eq_refl eq_refl) as Hloop.
  cbn [app] in Hloop. rewrite Hloop.
  cbn [mbind result_bind alignLoop Nat.add].
  rewrite (alignStep_table _ _ _ _ t r);
    cbn [textIndex readingIndex length Nat.add]; try done.
  - by rewrite Hj, Hcls.
  - by apply list_lookup_middle.
  - by apply list_lookup_middle.
Qed.

Lemma parseCantoneseReadings_mismatch_witness :
  parseCantoneseReadings [0x4F60; 0x597D] (str "nei5 ?")
  = Throw (Error_ (UnexpectedTextReading (Some [0x597D]) (Some (str "?")) 1)).
Proof.
  apply (parseCantoneseReadings_mismatch [0x4F60; 0x597D] (str "nei5 ?")
           [[0x4F60]] [0x597D] [] [str "nei5"] (str "?") []);
    try reflexivity.
  by repeat constructor.
Defined.

End AlignerMore.


(* ===================================================================== *)
(** ** Further properties of the headword and tag parsers *)
(* ===================================================================== *)

Section HeadwordsMore.
Import EntryParser Blocks.

Lemma split_char_hd_tl c (s : jsstring) :
  split [c] s = hd [] (split [c] s) :: tl (split [c] s).
Proof. unfold split. by rewrite splitLoop_cur. Qed.

Lemma join_cons_cons sep (x y : jsstring) rest :
  join sep (x :: y :: rest) = x ++ sep ++ join sep (y :: rest).
Proof. done. Qed.

Lemma join_char_cons c x (h : jsstring) t :
  join [c] ((x :: h) :: t) = x :: join [c] (h :: t).
Proof. by destruct t. Qed.

(** Joining the pieces of a split with the separator gives the string
    back. *)
Lemma join_split_char c (s : jsstring) : join [c] (split [c] s) = s.
Proof.
  induction s as [|x s IH]; [done|].
  rewrite split_char_cons. rewrite (split_char_hd_tl c s) in IH |- *.
  destruct (N.eqb_spec c x) as [->|Hne].
  - by rewrite join_cons_cons, IH.
  - cbn [hd tl]. by rewrite join_char_cons, IH.
Qed.

Lemma parseHeadword_Ok g h :
  parseHeadword g = Ok h →
  formatHeadword h = g ∧ Headword.text h ≠ [].
Proof.
  unfold parseHeadword, formatHeadword. change (str ":") with [0x3A].
  rewrite (split_char_hd_tl 0x3A g).
  cbn [lookup list_lookup tail truthy default from_option id truthyArray].
  destruct (nonEmpty _) eqn:Hne; cbn [negb orb]; [|done].
  intros [= <-]. cbn [Headword.text Headword.readings].
  rewrite <- split_char_hd_tl, join_split_char.
  split; [done | by apply nonEmpty_true].
Qed.

(** X13: a headword string that [parseHeadwords] accepts is recovered from
    the result: each headword written as its text and readings joined by
    colons, the headwords joined by commas. *)
Theorem parseHeadwords_roundtrip headwordString hs :
  parseHeadwords headwordString = Ok hs →
  formatHeadwords hs = headwordString.
Proof.
  unfold parseHeadwords, formatHeadwords. intros H.
  apply mapResult_Forall2 in H.
  assert (map formatHeadword hs = split (str ",") headwordString) as ->.
  { induction H as [|g h gs hs' Hgh _ IH]; [done|].
    cbn [map]. rewrite IH. f_equal. by apply parseHeadword_Ok. }
  apply join_split_char.
Qed.

Lemma parseHeadwords_roundtrip_witness :
  formatHeadwords
    [ {| Headword.text := str "a"; Headword.readings := [str "b"; str "c"] |};
      {| Headword.text := str "d"; Headword.readings := [] |} ]
  = str "a:b:c,d".
Proof. apply parseHeadwords_roundtrip. reflexivity. Defined.

Lemma throws_mapResult {A B} (f : A → result B) l :
  throws (mapResult f l) = existsb (λ a, throws (f a)) l.
Proof.
  induction l as [|a l IH]; [done|]. cbn [mapResult existsb].
  destruct (f a) as [b|e]; cbn [mbind result_bind throws orb]; [|done].
  rewrite <- IH. by destruct (mapResult f l).
Qed.

Lemma throws_parseHeadword g :
  throws (parseHeadword g) = negb (nonEmpty g) || startsWith (str ":") g.
Proof.
  unfold parseHeadword. change (str ":") with [0x3A].
  destruct g as [|x g]; [done|].
  rewrite split_char_cons. cbn [startsWith nonEmpty negb orb].
  rewrite andb_true_r. by destruct (0x3A =? x).
Qed.

(** X14: [parseHeadwords] throws exactly when one of the comma-separated
    groups is empty or begins with a colon, that is, has no text; the
    empty headword string is such a case. *)
Theorem parseHeadwords_throws headwordString :
  throws (parseHeadwords headwordString)
  = existsb (λ g, negb (nonEmpty g) || startsWith (str ":") g)
            (split (str ",") headwordString).
Proof.
  unfold parseHeadwords. rewrite throws_mapResult.
  induction (split (str ",") headwordString) as [|g gs IH]; [done|].
  cbn [existsb]. by rewrite throws_parseHeadword, IH.
Qed.

End HeadwordsMore.


Section TagsMore.
Import EntryParser Padding.

Lemma splitLoop_no_match m len prev cur c (s : jsstring) :
  m prev (c :: s) = false →
  splitLoop m len prev 0 cur (c :: s) = splitLoop m len (Some c) 0 (c :: cur) s.
Proof. intros H. cbn [splitLoop]. by rewrite H. Qed.

(** The first piece of the split on [")("] of a line that starts with the
    marker starts with the marker. *)
Lemma split_pos_line (body : jsstring) :
  ∃ piece pieces,
    split (str ")(") (str "(pos:" ++ body) = (str "(pos:" ++ piece) :: pieces.
Proof.
  change (str "(pos:" ++ body)
    with (0x28 :: 0x70 :: 0x6F :: 0x73 :: 0x3A :: body).
  change (str ")(") with [0x29; 0x28]. unfold split.
  rewrite !splitLoop_no_match by reflexivity.
  rewrite splitLoop_cur. by eexists _, _.
Qed.

Lemma parseTag_pos (piece : jsstring) :
  ∃ value, parseTag (str "(pos:" ++ piece)
           = {| Tag.name := str "pos"; Tag.value := value |}.
Proof.
  unfold parseTag. eexists. f_equal.
  assert (stripParens (str "(pos:" ++ piece) = str "pos:" ++ stripParens piece)
    as -> by done.
  assert (indexOf (str ":") (str "pos:" ++ stripParens piece) = 3%Z) as -> by done.
  unfold slice. rewrite !relativeIndex_inside
    by (rewrite length_app; cbn [length str map String.list_ascii_of_string]; lia).
  done.
Qed.

Lemma parseTags_first_pos line rest :
  startsWith (str "(pos:") line = true →
  ∃ value tags,
    parseTags (line :: rest)
    = Ok ({| Tag.name := str "pos"; Tag.value := value |} :: tags, rest).
Proof.
  intros Hpos. unfold parseTags.
  cbn [lookup list_lookup head tail truthy default from_option id].
  rewrite Hpos. cbn [negb].
  assert (nonEmpty line = true) as -> by (by destruct line).
  cbn [negb]. rewrite (startsWith_true _ _ Hpos).
  destruct (split_pos_line (drop (length (str "(pos:")) line))
    as (piece & pieces & ->).
  cbn [map length Nat.eqb].
  destruct (parseTag_pos piece) as [value ->]. by eexists _, _.
Qed.

(** X15: on an array whose first line starts with ["(pos:"],
    [parseTags] does not throw: it returns at least one tag, the first
    named ["pos"], and the lines after the first. *)
Theorem parseTags_succeeds line rest :
  startsWith (str "(pos:") line = true →
  ∃ value tags,
    parseTags (line :: rest)
    = Ok ({| Tag.name := str "pos"; Tag.value := value |} :: tags, rest).
Proof. apply parseTags_first_pos. Qed.

Lemma parseTags_succeeds_witness :
  ∃ value tags,
    parseTags [str "(pos:a)(b:c)"; str "yue:x"]
    = Ok ({| Tag.name := str "pos"; Tag.value := value |} :: tags,
          [str "yue:x"]).
Proof. apply parseTags_succeeds. reflexivity. Defined.

Lemma indexOf_char_missing c (s : jsstring) :
  c ∉ s → indexOf [c] s = (-1)%Z.
Proof.
  induction s as [|x s IH]; intros Hc; [done|].
  apply not_elem_of_cons in Hc as [Hne Hc].
  cbn [indexOf startsWith]. rewrite andb_true_r, (IH Hc).
  by destruct (N.eqb_spec c x).
Qed.

(** X16: of a group without a colon [parseTag] makes a tag whose value is
    the whole stripped group and whose name is the group without its last
    code unit, since [indexOf] answers -1 and [slice(0, -1)] drops one
    code unit from the end. *)
Theorem parseTag_no_colon (tag : jsstring) :
  0x3A ∉ stripParens tag →
  parseTag tag
  = {| Tag.name := trim (removelast (stripParens tag));
       Tag.value := trim (stripParens tag) |}.
Proof.
  intros Hc. unfold parseTag. change (str ":") with [0x3A].
  rewrite (indexOf_char_missing _ _ Hc).
  assert (∀ len, relativeIndex len 0 = 0%nat) as H0
    by (intros len; rewrite relativeIndex_inside; lia).
  assert (∀ len, relativeIndex len (-1) = pred len) as H1.
  { intros len. unfold relativeIndex.
    change (-1 <? 0)%Z with true. cbv iota. lia. }
  unfold slice, sliceFrom. change (-1 + 1)%Z with 0%Z.
  rewrite !H0, H1. cbn [drop].
  by rewrite Nat.sub_0_r, removelast_firstn_len.
Qed.

Lemma parseTag_no_colon_witness :
  parseTag (str "label)")
  = {| Tag.name := str "labe"; Tag.value := str "label" |}.
Proof. apply (parseTag_no_colon (str "label)")). by_decide. Defined.

(** *** Name and value of a tag *)

Lemma blank_no_colon (ws : jsstring) : blank ws → 0x3A ∉ ws.
Proof.
  induction 1 as [|c ws Hc _ IH]; [apply not_elem_of_nil|].
  apply not_elem_of_cons. split; [|done]. by intros <-.
Qed.

Lemma beforeFirst_app c (u s : jsstring) :
  c ∉ u → beforeFirst c (u ++ c :: s) = u ∧ afterFirst c (u ++ c :: s) = s.
Proof.
  induction u as [|x u IH]; intros Hc.
  - cbn. by rewrite N.eqb_refl.
  - apply not_elem_of_cons in Hc as [Hne Hc]. destruct (IH Hc) as [IH1 IH2].
    cbn [app beforeFirst afterFirst].
    destruct (N.eqb_spec x c); [done|]. by rewrite IH1, IH2.
Qed.

(** [trim] takes the white space off both ends and nothing else. *)
Lemma trim_padded (ws1 t ws2 : jsstring) :
  blank ws1 → blank ws2 → tight t → trim (ws1 ++ t ++ ws2) = t.
Proof.
  intros H1 H2 [Hhd Hlast]. unfold trim. rewrite trimStart_blank by done.
  destruct t as [|c t].
  { cbn [app]. rewrite <- (app_nil_r ws2), trimStart_blank by done. done. }
  cbn [app trimStart]. rewrite (Hhd c eq_refl).
  change (c :: t ++ ws2) with ((c :: t) ++ ws2).
  unfold trimEnd. rewrite rev_app_distr, trimStart_blank
    by (by apply List.Forall_rev).
  assert (trimStart (rev (c :: t)) = rev (c :: t)) as ->;
    [|apply rev_involutive].
  destruct (rev (c :: t)) as [|x r] eqn:Hr; [done|].
  cbn [trimStart]. rewrite (Hlast x); [done|].
  rewrite <- (rev_involutive (c :: t)), Hr. cbn [rev]. apply last_snoc.
Qed.

Lemma parseTag_writesTag fragment tag :
  writesTag (stripParens fragment) tag → parseTag fragment = tag.
Proof.
  intros (ws1 & ws2 & ws3 & ws4 & H1 & H2 & H3 & H4 & Heq & Hn & Hv & Hc).
  change (str ":") with [0x3A] in Heq. cbn [app] in Heq.
  assert (0x3A ∉ ws1 ++ Tag.name tag ++ ws2) as Hno.
  { rewrite !not_elem_of_app. split_and!; [|done|]; by apply blank_no_colon. }
  assert (stripParens fragment
          = (ws1 ++ Tag.name tag ++ ws2) ++ 0x3A :: ws3 ++ Tag.value tag ++ ws4)
    as Heq' by (rewrite Heq, <- !app_assoc; done).
  rewrite parseTag_spec
    by (rewrite Heq'; apply elem_of_app; right; by apply elem_of_cons; left).
  unfold tagOfFragment_spec. rewrite Heq'.
  destruct (beforeFirst_app 0x3A _ (ws3 ++ Tag.value tag ++ ws4) Hno)
    as [-> ->].
  rewrite !trim_padded by done. by destruct tag.
Qed.

(** C9: on the tag line of the two groups [pos] and [label],
    [parseTags] returns the two tags in order (and takes the line off the
    array), and the same two tags when white space stands around the
    names and the values; a first line that does not start with ["(pos:"]
    makes it throw a [ParseError]; and on a line that starts with the
    marker the tags are those the description gives, fragment by fragment
    of the split on [")("]: the parentheses taken off, the name is what
    stands before the first colon and the value what stands after it, each
    without the white space around it. *)
Theorem parseTags_pos_label :
  (∀ rest,
      parseTags ((str "(pos:" ++ [0x540D; 0x8A5E] ++ str ")(label:"
                    ++ [0x66F8; 0x9762; 0x8A9E] ++ str ")") :: rest)
      = Ok ([ {| Tag.name := str "pos"; Tag.value := [0x540D; 0x8A5E] |};
              {| Tag.name := str "label";
                 Tag.value := [0x66F8; 0x9762; 0x8A9E] |} ], rest))
  ∧ (∀ rest,
      parseTags ((str "(pos: " ++ [0x540D; 0x8A5E] ++ str " )( label :"
                    ++ [0x3000; 0x66F8; 0x9762; 0x8A9E] ++ str ")") :: rest)
      = Ok ([ {| Tag.name := str "pos"; Tag.value := [0x540D; 0x8A5E] |};
              {| Tag.name := str "label";
                 Tag.value := [0x66F8; 0x9762; 0x8A9E] |} ], rest))
  ∧ (∀ line rest,
      startsWith (str "(pos:") line = false →
      parseTags (line :: rest) = Throw (ParseError (NoPosMarker (Some line))))
  ∧ (∀ line rest,
      startsWith (str "(pos:") line = true →
      Forall (λ fragment, 0x3A ∈ stripParens fragment)
             (split (str ")(") line) →
      parseTags (line :: rest)
      = Ok (map tagOfFragment_spec (split (str ")(") line), rest))
  ∧ (∀ line rest tags,
      startsWith (str "(pos:") line = true →
      Forall2 (λ fragment tag, writesTag (stripParens fragment) tag)
              (split (str ")(") line) tags →
      parseTags (line :: rest) = Ok (tags, rest)).
Proof.
  assert (∀ line rest,
            startsWith (str "(pos:") line = true →
            parseTags (line :: rest)
            = Ok (map parseTag (split (str ")(") line), rest)) as Hrun.
  { intros line rest Hpos. unfold parseTags.
    cbn [lookup list_lookup head tail truthy default from_option id].
    rewrite Hpos. cbn [negb].
    assert (nonEmpty line = true) as -> by (by destruct line).
    cbn [negb]. rewrite length_map.
    destruct (split (str ")(") line) as [|frag frags] eqn:Hsplit; [|done].
    unfold split in Hsplit. by rewrite splitLoop_cur in Hsplit. }
  split_and!.
  - intros rest. reflexivity.
  - intros rest. reflexivity.
  - intros line rest Hno. unfold parseTags.
    cbn [lookup list_lookup]. by rewrite Hno.
  - intros line rest Hpos Hcolon. rewrite Hrun by done. do 2 f_equal.
    apply map_ext_Forall.
    eapply Forall_impl; [exact Hcolon|]. intros f Hf. by apply parseTag_spec.
  - intros line rest tags Hpos Htags. rewrite Hrun by done. do 2 f_equal.
    induction Htags as [|fragment tag fragments tags Hw _ IH]; [done|].
    cbn [map]. by rewrite IH, (parseTag_writesTag _ _ Hw).
Qed.

Lemma parseTags_pos_label_witness :
  parseTags [str "pos:x"] = Throw (ParseError (NoPosMarker (Some (str "pos:x"))))
  ∧ parseTags [str "(pos: a )( b" ++ [0x3000] ++ str ": c d )"; str "yue:x"]
    = Ok ([ {| Tag.name := str "pos"; Tag.value := str "a" |};
            {| Tag.name := str "b"; Tag.value := str "c d" |} ],
          [str "yue:x"]).
Proof.
  destruct parseTags_pos_label as (_ & _ & H3 & _ & H5).
  split.
  - apply H3. reflexivity.
  - apply H5; [reflexivity|].
    change (split (str ")(") (str "(pos: a )( b" ++ [0x3000] ++ str ": c d )"))
      with [str "(pos: a "; str " b" ++ [0x3000] ++ str ": c d )"].
    constructor; [|constructor; [|constructor]].
    + exists [], [], (str " "), (str " ").
      split_and!; try (by repeat constructor); try by_decide;
        split; by intros c [= <-].
    + exists (str " "), [0x3000], (str " "), (str " ").
      split_and!; try (by repeat constructor); try by_decide;
        split; by intros c [= <-].
Defined.

End TagsMore.


(* ===================================================================== *)
(** ** Further properties of the language-block parser *)
(* ===================================================================== *)

Section LanguageMore.
Import Constants EntryParser Blocks.

(** X17: a line with a colon whose prefix is neither a code of the
    enumeration nor a property name that every object inherits makes
    [parseLanguageData] throw, and with the [ParseError] that names the
    prefix when the lines before it are accepted. *)
Theorem parseLanguageData_rejects_unknown_code text pre line post :
  split LF text = pre ++ line :: post →
  includes (str ":") line = true →
  toStr (split (str ":") line !! 0%nat) ∉ LanguageArray →
  toStr (split (str ":") line !! 0%nat) ∉ Object.prototypeKeys →
  throws (parseLanguageData text) = true
  ∧ ∀ st, languageLines langStart pre = Ok st →
          parseLanguageData text
          = Throw (ParseError
                     (InvalidLanguage (toStr (split (str ":") line !! 0%nat)))).
Proof. apply parseLanguageData_unknown_code. Qed.

Lemma parseLanguageData_rejects_unknown_code_witness :
  throws (parseLanguageData (str "eng:a" ++ LF ++ str "xyz:b")) = true
  ∧ ∀ st, languageLines langStart [str "eng:a"] = Ok st →
          parseLanguageData (str "eng:a" ++ LF ++ str "xyz:b")
          = Throw (ParseError (InvalidLanguage (str "xyz"))).
Proof.
  apply (parseLanguageData_rejects_unknown_code
           (str "eng:a" ++ LF ++ str "xyz:b") [str "eng:a"] (str "xyz:b") []);
    first [reflexivity | by_decide].
Defined.

Lemma addCurrentLangData_inv st st' :
  addCurrentLangData st = Ok st' → langInv st → langInv st'.
Proof.
  unfold addCurrentLangData, Object.truthyAt, Object.get.
  destruct (nonEmpty (currentLang st)) eqn:Hl; cbn [negb];
    [|by intros [= <-]].
  destruct (nonEmpty (currentLangData st)); cbn [negb]; [|by intros [= <-]].
  intros H [Hkeys Hlang].
  assert (languageData st !! currentLang st = None →
          existsb (eqStr (currentLang st)) Object.prototypeKeys = false →
          currentLang st ∈ LanguageArray) as Hknown.
  { intros _ Hp. destruct Hlang as [Hnil|[?|Hin]]; [|done|].
    - rewrite Hnil in Hl. done.
    - apply prototypeKeys_existsb in Hin. congruence. }
  assert (∀ arr m, keysKnown m → currentLang st ∈ LanguageArray →
            keysKnown (<[currentLang st := arr]> m)) as Hins.
  { intros arr m Hm Hin k Hk.
    destruct (decide (k = currentLang st)) as [->|Hne]; [done|].
    rewrite lookup_insert_ne in Hk by done. by apply Hm. }
  destruct (languageData st !! currentLang st) as [arr|] eqn:Hm.
  - cbn [negb] in H. rewrite Hm in H. injection H as <-.
    split; [|by left]. cbn. apply Hins; [done|]. apply Hkeys. by rewrite Hm.
  - destruct (existsb _ _) eqn:Hp; cbn [negb] in H.
    + by rewrite Hm in H.
    + rewrite lookup_insert_eq in H. injection H as <-.
      split; [|by left]. cbn. rewrite insert_insert_eq. by apply Hins, Hknown.
Qed.

Lemma languageLine_inv st line st' :
  languageLine st line = Ok st' → langInv st → langInv st'.
Proof.
  unfold languageLine.
  destruct (includes _ line); cbn [negb]; [|by intros [= <-]].
  destruct (Object.truthyAt LANGUAGES_DATA _) eqn:Hcode; cbn [negb]; [|done].
  destruct (addCurrentLangData st) as [st1|e] eqn:Hflush; [|done].
  cbn [mbind result_bind]. intros [= <-] Hinv.
  destruct (addCurrentLangData_inv _ _ Hflush Hinv) as [Hkeys _].
  split; [done|]. cbn. right. by apply truthyAt_LANGUAGES_DATA.
Qed.

Lemma languageLines_inv lines : ∀ st st',
  languageLines st lines = Ok st' → langInv st → langInv st'.
Proof.
  induction lines as [|line lines IH]; intros st st'; [by intros [= <-]|].
  cbn [languageLines].
  destruct (languageLine st line) as [st1|e] eqn:Hline; [|done].
  cbn [mbind result_bind]. intros Hrest Hinv.
  eapply IH; [done|]. by eapply languageLine_inv.
Qed.

(** X18: every key of a value that [parseLanguageData] returns is one of
    the fourteen codes of the enumeration: an inherited property name,
    which the guard of the loop lets through, never becomes a key. *)
Theorem parseLanguageData_keys text m k :
  parseLanguageData text = Ok m → is_Some (m !! k) → k ∈ LanguageArray.
Proof.
  unfold parseLanguageData.
  destruct (languageLines langStart (split LF text)) as [st|e] eqn:Hlines;
    [|done].
  cbn [mbind result_bind].
  destruct (addCurrentLangData st) as [st1|e] eqn:Hflush; [|done].
  cbn [mbind result_bind]. intros [= <-].
  assert (langInv langStart) as Hstart.
  { split; [|by left]. intros k' Hk'. cbn in Hk'.
    rewrite lookup_empty in Hk'. by destruct Hk'. }
  apply (languageLines_inv _ _ _ Hlines) in Hstart.
  apply (addCurrentLangData_inv _ _ Hflush) in Hstart as [Hkeys _].
  apply Hkeys.
Qed.

Lemma parseLanguageData_keys_witness : str "eng" ∈ LanguageArray.
Proof.
  apply (parseLanguageData_keys (str "eng:hello")
           (<[str "eng" := [str "hello"]]> ∅)); [reflexivity|].
  by rewrite lookup_insert_eq.
Defined.

Lemma split_char_avoids c d (s : jsstring) :
  d ∉ s → Forall (λ x, d ∉ x) (split [c] s).
Proof.
  induction s as [|x s IH]; intros Hd; [by repeat constructor|].
  apply not_elem_of_cons in Hd as [Hne Hd]. specialize (IH Hd).
  rewrite split_char_cons. rewrite (split_char_hd_tl c s) in IH |- *.
  inversion_clear IH as [|? ? Hh Ht]. cbn [hd tl].
  destruct (c =? x).
  - constructor; [apply not_elem_of_nil | by constructor].
  - constructor; [by apply not_elem_of_cons | done].
Qed.

(** Lines without a colon add to the buffer and leave the rest of the
    state alone. *)
Lemma languageLines_continuation conts : ∀ m l d,
  Forall (λ line, 0x3A ∉ line) conts →
  languageLines
    {| languageData := m; currentLang := l; currentLangData := d |} conts
  = Ok {| languageData := m; currentLang := l;
          currentLangData :=
            foldl (λ buf line, buf ++ LF ++ trim line) d conts |}.
Proof.
  induction conts as [|line conts IH]; intros m l d Hno; [done|].
  inversion_clear Hno as [|? ? Hline Hno'].
  cbn [languageLines foldl]. unfold languageLine at 1.
  change (str ":") with [0x3A]. rewrite includes_char_false by done.
  cbn [negb mbind result_bind languageData currentLang currentLangData].
  by apply IH.
Qed.

(** X19: a block without any colon has no language line: whatever its
    lines, the result is the empty object; so for the empty block. *)
Theorem parseLanguageData_no_colon text :
  0x3A ∉ text → parseLanguageData text = Ok ∅.
Proof.
  intros Hno. unfold parseLanguageData, langStart, LF.
  rewrite languageLines_continuation by (by apply split_char_avoids).
  by cbn.
Qed.

Lemma parseLanguageData_no_colon_witness :
  parseLanguageData (str "see above" ++ LF ++ str "and below") = Ok ∅.
Proof. apply parseLanguageData_no_colon. by_decide. Defined.

Lemma split_join_char c (lines : list jsstring) :
  lines ≠ [] → Forall (λ line, c ∉ line) lines →
  split [c] (join [c] lines) = lines.
Proof.
  intros Hne Hno. induction Hno as [|x rest Hx Hrest IH]; [done|].
  destruct rest as [|y rest]; [by apply split_char_none|].
  rewrite join_cons_cons. cbn [app].
  rewrite split_char_app by done. f_equal. by apply IH.
Qed.

(** X20: a language line followed by continuation lines gives one segment
    under its code: the trimmed text and the trimmed continuation lines,
    joined by line feeds and trimmed once more (the empty string when all
    of it is blank but a continuation line is there). *)
Theorem parseLanguageData_continuation (l a : jsstring) conts :
  l ∈ LanguageArray → 0x0A ∉ a →
  Forall (λ line, (0x0A ∉ line) ∧ (0x3A ∉ line)) conts →
  continued a conts ≠ [] →
  parseLanguageData (join LF (languageLineOf (l, a) :: conts))
  = Ok (<[l := [trim (continued a conts)]]> ∅).
Proof.
  intros Hl Ha Hconts Hne.
  destruct (LanguageArray_shape l Hl) as (Hlne & _ & Hlnl & Hlp).
  unfold parseLanguageData, LF.
  rewrite split_join_char; [|done|].
  2:{ constructor.
      - unfold languageLineOf. cbn [fst snd]. change (str ":") with [0x3A].
        rewrite not_elem_of_app, not_elem_of_app, not_elem_of_cons.
        split_and!; try done. apply not_elem_of_nil.
      - eapply Forall_impl; [exact Hconts|]. by intros ? [? _]. }
  cbn [languageLines]. unfold languageLineOf. cbn [fst snd].
  change (str ":") with [0x3A]. cbn [app].
  rewrite languageLine_language by done.
  unfold langStart. rewrite addCurrentLangData_no_lang.
  cbn [mbind result_bind languageData].
  rewrite languageLines_continuation
    by (eapply Forall_impl; [exact Hconts|]; by intros ? [_ ?]).
  cbn [mbind result_bind]. fold (continued a conts).
  rewrite addCurrentLangData_push by done.
  cbn [mbind result_bind languageData]. by rewrite lookup_empty.
Qed.

Lemma parseLanguageData_continuation_witness :
  parseLanguageData
    (join LF (languageLineOf (str "eng", str " first") :: [str "second "]))
  = Ok (<[str "eng" := [trim (continued (str " first") [str "second "])]]> ∅).
Proof.
  apply parseLanguageData_continuation; by_decide.
Defined.

Lemma languageLineOf_no_LF item :
  goodItem item → 0x0A ∉ languageLineOf item.
Proof.
  intros (Hl & Ha & _).
  destruct (LanguageArray_shape _ Hl) as (_ & _ & Hlnl & _).
  unfold languageLineOf. change (str ":") with [0x3A].
  rewrite not_elem_of_app, not_elem_of_app, not_elem_of_cons.
  split_and!; try done. apply not_elem_of_nil.
Qed.

Lemma languageLine_item st item :
  goodItem item →
  languageLine st (languageLineOf item)
  = st' ← addCurrentLangData st;
    Ok {| languageData := languageData st'; currentLang := item.1;
          currentLangData := trim item.2 |}.
Proof. intros (Hl & _). exact (languageLine_language st item.1 item.2 Hl). Qed.

(** With a language line open, further language lines push the open
    segment and open their own; the last flush pushes the last. *)
Lemma languageLines_items items : ∀ m item,
  goodItem item → Forall goodItem items →
  (st ← languageLines
          {| languageData := m; currentLang := item.1;
             currentLangData := trim item.2 |}
          (map languageLineOf items);
   addCurrentLangData st)
  = Ok {| languageData := foldl pushSegment m (item :: items);
          currentLang := []; currentLangData := [] |}.
Proof.
  induction items as [|next items IH]; intros m item Hitem Hitems.
  - destruct Hitem as (Hl & _ & Hne).
    destruct (LanguageArray_shape _ Hl) as (Hlne & _ & _ & Hlp).
    cbn [map languageLines mbind result_bind foldl].
    rewrite addCurrentLangData_push by done.
    unfold pushSegment. by rewrite trim_idemp.
  - inversion_clear Hitems as [|? ? Hnext Hitems'].
    destruct Hitem as (Hl & _ & Hne).
    destruct (LanguageArray_shape _ Hl) as (Hlne & _ & _ & Hlp).
    cbn [map languageLines].
    rewrite languageLine_item by done.
    rewrite addCurrentLangData_push by done.
    cbn [mbind result_bind languageData].
    rewrite trim_idemp. fold (pushSegment m item).
    rewrite (IH _ next) by done. done.
Qed.

Lemma pushSegment_lookup m item k :
  pushSegment m item !! k
  = if eqStr item.1 k then Some (default [] (m !! k) ++ [trim item.2])
    else m !! k.
Proof.
  unfold pushSegment, eqStr. case_bool_decide as Hk.
  - subst k. by rewrite lookup_insert_eq.
  - by rewrite lookup_insert_ne.
Qed.

Lemma foldl_pushSegment_lookup items : ∀ m k,
  foldl pushSegment m items !! k
  = match segmentsOf k items with
    | [] => m !! k
    | segs => Some (default [] (m !! k) ++ segs)
    end.
Proof.
  induction items as [|item items IH]; intros m k; [done|].
  cbn [foldl]. rewrite IH, pushSegment_lookup.
  unfold segmentsOf. cbn [List.filter].
  destruct (eqStr item.1 k); cbn [map].
  - cbn [default from_option id].
    destruct (map _ (List.filter _ items)); [done|].
    by rewrite <- app_assoc.
  - done.
Qed.

(** X21: a block of language lines, each a code of the enumeration with a
    one-line text that is not blank, gives under every code the trimmed
    texts of the lines of that code, in the order of the lines, and no key
    for a code without a line. *)
Theorem parseLanguageData_items items :
  Forall goodItem items →
  ∃ m, parseLanguageData (join LF (map languageLineOf items)) = Ok m
     ∧ ∀ k, m !! k = match segmentsOf k items with
                     | [] => None
                     | segs => Some segs
                     end.
Proof.
  intros Hitems. exists (foldl pushSegment ∅ items). split.
  - destruct items as [|item items]; [done|].
    inversion_clear Hitems as [|? ? Hitem Hitems'].
    unfold parseLanguageData, LF.
    rewrite split_join_char; [|done|].
    2:{ apply Forall_fmap. eapply Forall_impl; [|apply languageLineOf_no_LF].
        by constructor. }
    cbn [map languageLines].
    rewrite languageLine_item by done.
    unfold langStart. rewrite addCurrentLangData_no_lang.
    cbn [mbind result_bind languageData].
    pose proof (languageLines_items items ∅ item Hitem Hitems') as Hrun.
    destruct (languageLines _ (map languageLineOf items)) as [st|e];
      cbn [mbind result_bind] in Hrun |- *; [|done].
    by rewrite Hrun.
  - intros k. rewrite foldl_pushSegment_lookup, lookup_empty.
    by destruct (segmentsOf k items).
Qed.

Lemma parseLanguageData_items_witness :
  ∃ m, parseLanguageData
         (join LF (map languageLineOf
                     [ (str "yue", str "a"); (str "eng", str "b");
                       (str "yue", str "c"); (str "yue", str "d") ])) = Ok m
     ∧ ∀ k, m !! k
            = match segmentsOf k [ (str "yue", str "a"); (str "eng", str "b");
                                   (str "yue", str "c"); (str "yue", str "d") ]
              with
              | [] => None
              | segs => Some segs
              end.
Proof.
  apply parseLanguageData_items.
  repeat constructor; first [by_decide | discriminate].
Defined.

(** *** Occurrences of a code

    A block is some lines without a colon and then occurrences of codes,
    each a language line with its continuation lines.  The loop flushes an
    occurrence when the next begins, and the last at the end. *)

Lemma addCurrentLangData_occurrence m (g : occurrence) :
  goodOccurrence g →
  ∃ st', addCurrentLangData
           {| languageData := m; currentLang := g.1.1;
              currentLangData := bufferOf g |} = Ok st'
         ∧ languageData st' = pushOccurrence m g.
Proof.
  intros (Hl & _).
  destruct (LanguageArray_shape _ Hl) as (Hlne & _ & _ & Hlp).
  unfold pushOccurrence. destruct (nonEmpty (bufferOf g)) eqn:Hbuf.
  - apply nonEmpty_true in Hbuf.
    rewrite addCurrentLangData_push by done. by eexists.
  - unfold addCurrentLangData. cbn [currentLang currentLangData].
    apply nonEmpty_true in Hlne. rewrite Hlne, Hbuf. by eexists.
Qed.

Lemma languageLines_occurrence st (g : occurrence) :
  goodOccurrence g →
  languageLines st (occurrenceLines g)
  = st' ← addCurrentLangData st;
    Ok {| languageData := languageData st'; currentLang := g.1.1;
          currentLangData := bufferOf g |}.
Proof.
  intros (Hl & _ & Hconts). unfold occurrenceLines, languageLineOf.
  cbn [languageLines]. change (str ":") with [0x3A]. cbn [app].
  rewrite languageLine_language by done.
  destruct (addCurrentLangData st) as [st'|e]; cbn [mbind result_bind];
    [|done].
  rewrite languageLines_continuation; [done|].
  eapply Forall_impl; [exact Hconts|]. by intros ? [_ ?].
Qed.

Lemma languageLines_occurrences (gs : list occurrence) : ∀ m g0,
  goodOccurrence g0 → Forall goodOccurrence gs →
  ∃ st', (st ← languageLines
                  {| languageData := m; currentLang := g0.1.1;
                     currentLangData := bufferOf g0 |}
                  (concat (map occurrenceLines gs));
          addCurrentLangData st) = Ok st'
         ∧ languageData st' = foldl pushOccurrence m (g0 :: gs).
Proof.
  induction gs as [|g1 gs IH]; intros m g0 Hg0 Hgs.
  - cbn [map concat languageLines mbind result_bind foldl].
    by apply addCurrentLangData_occurrence.
  - inversion_clear Hgs as [|? ? Hg1 Hgs'].
    cbn [map concat]. rewrite languageLines_app, languageLines_occurrence
      by done.
    destruct (addCurrentLangData_occurrence m g0 Hg0) as (st1 & -> & Hst1).
    cbn [mbind result_bind]. rewrite Hst1.
    destruct (IH (pushOccurrence m g0) g1 Hg1 Hgs') as (st' & Hrun & Hst').
    exists st'. split; [exact Hrun | exact Hst'].
Qed.

Lemma occurrenceLines_no_LF (g : occurrence) :
  goodOccurrence g → Forall (λ line, 0x0A ∉ line) (occurrenceLines g).
Proof.
  intros (Hl & Ha & Hconts).
  destruct (LanguageArray_shape _ Hl) as (_ & _ & Hlnl & _).
  constructor.
  - unfold languageLineOf. change (str ":") with [0x3A].
    rewrite not_elem_of_app, not_elem_of_app, not_elem_of_cons.
    split_and!; try done. apply not_elem_of_nil.
  - eapply Forall_impl; [exact Hconts|]. by intros ? [? _].
Qed.

Lemma foldl_pushOccurrence_lookup (gs : list occurrence) : ∀ m k,
  foldl pushOccurrence m gs !! k
  = match segmentsOfOccurrences k gs with
    | [] => m !! k
    | segs => Some (default [] (m !! k) ++ segs)
    end.
Proof.
  induction gs as [|g gs IH]; intros m k; [done|].
  cbn [foldl]. rewrite IH. unfold segmentsOfOccurrences, pushOccurrence.
  cbn [List.filter]. destruct (nonEmpty (bufferOf g)).
  - rewrite pushSegment_lookup. cbn [fst snd]. rewrite andb_true_r.
    destruct (eqStr g.1.1 k); cbn [map]; [|done].
    cbn [default from_option id].
    destruct (map _ (List.filter _ gs)); [done|].
    by rewrite <- app_assoc.
  - by rewrite andb_false_r.
Qed.

Lemma parseLanguageData_occurrences pre (gs : list occurrence) :
  Forall plainLine pre → Forall goodOccurrence gs →
  parseLanguageData (join LF (pre ++ concat (map occurrenceLines gs)))
  = Ok (foldl pushOccurrence ∅ gs).
Proof.
  intros Hpre Hgs.
  destruct (decide (pre ++ concat (map occurrenceLines gs) = [])) as [Hnil|Hne].
  { apply app_eq_nil in Hnil as [-> Hnil]. by destruct gs. }
  unfold parseLanguageData, LF. rewrite split_join_char; [|done|].
  2:{ apply Forall_app. split.
      - eapply Forall_impl; [exact Hpre|]. by intros ? [? _].
      - apply Forall_concat, Forall_fmap.
        eapply Forall_impl; [exact Hgs|]. apply occurrenceLines_no_LF. }
  clear Hne. rewrite languageLines_app. unfold langStart.
  rewrite languageLines_continuation
    by (eapply Forall_impl; [exact Hpre|]; by intros ? [_ ?]).
  cbn [mbind result_bind].
  destruct gs as [|g0 gs]; [done|].
  inversion_clear Hgs as [|? ? Hg0 Hgs'].
  cbn [map concat]. rewrite languageLines_app, languageLines_occurrence
    by done.
  rewrite addCurrentLangData_no_lang. cbn [mbind result_bind languageData].
  destruct (languageLines_occurrences gs ∅ g0 Hg0 Hgs') as (st' & Hrun & Hst').
  destruct (languageLines _ (concat (map occurrenceLines gs))) as [st|e];
    cbn [mbind result_bind] in Hrun |- *; [|done].
  rewrite Hrun. cbn [mbind result_bind]. by rewrite Hst'.
Qed.

(** The claim of C6 fails on a block in which the code [eng] stands on two
    lines that are not neighbours, the first with nothing after the colon:
    there is one segment under [eng], not two. *)
Lemma parseLanguageData_blank_occurrence_no_segment :
  parseLanguageData (str "eng:" ++ LF ++ str "yue:x" ++ LF ++ str "eng:world")
  = Ok (<[str "eng" := [str "world"]]> (<[str "yue" := [str "x"]]> ∅)).
Proof. reflexivity. Qed.

(** C6, amended: the block of three lines [eng:hello], [yue:] with two
    ideographs, [eng:world] gives two segments under [eng], in the order of
    the lines, and one under [yue].  In general, for a block of lines
    without a colon followed by any occurrences of codes of the
    enumeration, each a language line with its continuation lines: every
    occurrence whose buffer is not the empty string gives one segment of
    its own, the trimmed buffer, the segments of a code standing in the
    order of its occurrences, whether these are neighbours or not; an
    occurrence whose buffer is the empty string gives none. *)
Theorem parseLanguageData_separate_segments :
  parseLanguageData
    (str "eng:hello" ++ LF ++ str "yue:" ++ [0x4F60; 0x597D] ++ LF
       ++ str "eng:world")
  = Ok (<[str "eng" := [str "hello"; str "world"]]>
          (<[str "yue" := [[0x4F60; 0x597D]]]> ∅))
  ∧ ∀ pre (gs : list occurrence),
      Forall plainLine pre → Forall goodOccurrence gs →
      ∃ m, parseLanguageData
             (join LF (pre ++ concat (map occurrenceLines gs))) = Ok m
         ∧ ∀ k, m !! k = match segmentsOfOccurrences k gs with
                         | [] => None
                         | segs => Some segs
                         end.
Proof.
  split; [reflexivity|].
  intros pre gs Hpre Hgs. exists (foldl pushOccurrence ∅ gs).
  split; [by apply parseLanguageData_occurrences|].
  intros k. rewrite foldl_pushOccurrence_lookup, lookup_empty.
  by destruct (segmentsOfOccurrences k gs).
Qed.

Lemma parseLanguageData_separate_segments_witness :
  ∃ m, parseLanguageData
         (join LF ([str "see also"]
                   ++ concat (map occurrenceLines
                        [ (str "yue", str " a ", [str "more "]);
                          (str "eng", str "b:c", []);
                          (str "yue", str "", []);
                          (str "yue", str "d", []) ]))) = Ok m
     ∧ m !! str "yue" = Some [str "a" ++ LF ++ str "more"; str "d"]
     ∧ m !! str "eng" = Some [str "b:c"]
     ∧ m !! str "zho" = None.
Proof.
  destruct parseLanguageData_separate_segments as (_ & H).
  destruct (H [str "see also"]
              [ (str "yue", str " a ", [str "more "]);
                (str "eng", str "b:c", []);
                (str "yue", str "", []);
                (str "yue", str "d", []) ]) as (m & Hm & Hk).
  - repeat constructor; by_decide.
  - repeat constructor; by_decide.
  - exists m. split; [exact Hm|].
    split_and!; rewrite Hk; reflexivity.
Defined.

End LanguageMore.


(* ===================================================================== *)
(** ** Further properties of senses, entries and the batch loop *)
(* ===================================================================== *)

Section EntriesMore.
Import EntryParser Sample CsvReader Blocks.

(** X22: in a sense that [parseSense] returns there are as many examples
    as the text, after the removal of the first ["<explanation>"] line
    marker, has lines that are exactly ["<eg>"]. *)
Theorem parseSense_examples entryText sense :
  parseSense entryText = Ok sense →
  length (Sense.egs sense)
  = countLines (str "<eg>")
      (replaceFirst (str "<explanation>" ++ LF) entryText).
Proof.
  intros H. apply parseSense_Ok in H. cbv zeta in H.
  apply mapResult_Forall2, Forall2_length in H. rewrite <- H.
  pose proof (splitFullLine_length (str "<eg>")
                (replaceFirst (str "<explanation>" ++ LF) entryText)) as Hlen.
  destruct (splitFullLine _ _) as [|x xs].
  - specialize (Hlen ltac:(done) ltac:(by repeat constructor)). done.
  - specialize (Hlen ltac:(done) ltac:(by repeat constructor)).
    cbn [length tail] in *. lia.
Qed.

Lemma parseSense_examples_witness :
  length [ (<[str "yue" := [str "b"]]> ∅ : LanguageData);
           <[str "yue" := [str "c"]]> ∅ ]
  = countLines (str "<eg>")
      (replaceFirst (str "<explanation>" ++ LF)
         (join LF [ str "<explanation>"; str "yue:a"; str "<eg>"; str "yue:b";
                    str "<eg>"; str "yue:c" ])).
Proof.
  apply (parseSense_examples
           (join LF [ str "<explanation>"; str "yue:a"; str "<eg>";
                      str "yue:b"; str "<eg>"; str "yue:c" ])
           {| Sense.explanation := <[str "yue" := [str "a"]]> ∅;
              Sense.egs := [ <[str "yue" := [str "b"]]> ∅;
                             <[str "yue" := [str "c"]]> ∅ ] |}).
  vm_compute. reflexivity.
Defined.

(** The parts of a successful [parseEntry]. *)
Lemma parseEntry_Ok_parts entry e :
  parseEntry entry = Ok e →
  parseHeadwords (CsvRecord.headword entry) = Ok (DictionaryEntry.headwords e)
  ∧ ∃ lines', parseTags (split LF (CsvRecord.entry entry))
              = Ok (DictionaryEntry.tags e, lines').
Proof.
  intros H. unfold parseEntry in H.
  destruct (parseInt (CsvRecord.id entry)) as [id|]; [|done].
  destruct (parseHeadwords (CsvRecord.headword entry)) as [hs|]; [|done].
  cbn [mbind result_bind] in H.
  destruct (parseTags (split LF (CsvRecord.entry entry)))
    as [[tags lines']|] eqn:Htags; [|done].
  cbn [mbind result_bind] in H.
  destruct (mapResult parseSense _) as [senses|]; [|done].
  cbn [mbind result_bind] in H. injection H as <-. eauto.
Qed.

Lemma parseTags_Ok_marker lines tags lines' :
  parseTags lines = Ok (tags, lines') →
  ∃ line rest, lines = line :: rest ∧ startsWith (str "(pos:") line = true.
Proof.
  unfold parseTags. destruct lines as [|line rest]; [done|].
  cbn [lookup list_lookup].
  destruct (startsWith (str "(pos:") line) eqn:Hpos; [|done]. eauto.
Qed.

(** X23: an entry that [parseEntry] returns has at least one headword,
    every headword has a non-empty text, the first tag is named ["pos"],
    and there is at least one sense. *)
Theorem parseEntry_wellFormed entry e :
  parseEntry entry = Ok e →
  DictionaryEntry.headwords e ≠ []
  ∧ Forall (λ h, Headword.text h ≠ []) (DictionaryEntry.headwords e)
  ∧ (∃ value tags,
       DictionaryEntry.tags e
       = {| Tag.name := str "pos"; Tag.value := value |} :: tags)
  ∧ DictionaryEntry.senses e ≠ [].
Proof.
  intros H.
  destruct (parseEntry_Ok_parts _ _ H) as (Hhs & lines' & Htags).
  apply parseEntry_Ok in H as [_ Hsenses]. cbv zeta in Hsenses.
  apply mapResult_Forall2 in Hhs, Hsenses.
  split_and!.
  - change (str ",") with [0x2C] in Hhs.
    rewrite split_char_hd_tl in Hhs. by inversion Hhs.
  - clear -Hhs. induction Hhs as [|g h gs hs Hgh _ IH]; constructor; [|done].
    by apply parseHeadword_Ok in Hgh as [_ ?].
  - destruct (parseTags_Ok_marker _ _ _ Htags) as (line & rest & Hl & Hpos).
    rewrite Hl in Htags.
    destruct (parseTags_first_pos line rest Hpos) as (value & tags & Hok).
    rewrite Hok in Htags. injection Htags as <- _. eauto.
  - unfold splitFullLine in Hsenses. rewrite splitLoop_cur in Hsenses.
    by inversion Hsenses.
Qed.

Lemma parseEntry_wellFormed_witness :
  DictionaryEntry.headwords (sampleEntry 42) ≠ []
  ∧ Forall (λ h, Headword.text h ≠ [])
           (DictionaryEntry.headwords (sampleEntry 42))
  ∧ (∃ value tags,
       DictionaryEntry.tags (sampleEntry 42)
       = {| Tag.name := str "pos"; Tag.value := value |} :: tags)
  ∧ DictionaryEntry.senses (sampleEntry 42) ≠ [].
Proof.
  apply (parseEntry_wellFormed (sampleRow (str "42"))).
  vm_compute. reflexivity.
Defined.

Lemma startsWith_first_piece c (p : jsstring) :
  c ∉ p → ∀ s, startsWith p (hd [] (split [c] s)) = startsWith p s.
Proof.
  induction p as [|a p IH]; intros Hc s; [done|].
  apply not_elem_of_cons in Hc as [Hne Hc].
  destruct s as [|x s]; [done|].
  rewrite split_char_cons. destruct (N.eqb_spec c x) as [<-|Hcx].
  - cbn [hd startsWith]. by destruct (N.eqb_spec a c).
  - cbn [hd startsWith]. by rewrite IH.
Qed.

(** X24: a row whose id and headword field are accepted but whose body
    does not start with ["(pos:"] makes [parseEntry] throw the
    [ParseError] of the missing marker, with the first line of the body. *)
Theorem parseEntry_no_marker entry id hs :
  parseInt (CsvRecord.id entry) = Some id →
  parseHeadwords (CsvRecord.headword entry) = Ok hs →
  startsWith (str "(pos:") (CsvRecord.entry entry) = false →
  parseEntry entry
  = Throw (ParseError
             (NoPosMarker (Some (hd [] (split LF (CsvRecord.entry entry)))))).
Proof.
  intros Hid Hhs Hpos. unfold parseEntry. rewrite Hid, Hhs.
  cbn [mbind result_bind]. unfold parseTags, LF.
  rewrite (split_char_hd_tl 0x0A (CsvRecord.entry entry)).
  cbn [lookup list_lookup hd].
  rewrite startsWith_first_piece, Hpos by by_decide. done.
Qed.

Lemma parseEntry_no_marker_witness :
  parseEntry
    {| CsvRecord.id := str "7"; CsvRecord.headword := str "a:b";
       CsvRecord.entry := NO_DATA; CsvRecord.variants := [];
       CsvRecord.warning := []; CsvRecord.public := [] |}
  = Throw (ParseError (NoPosMarker (Some (hd [] (split LF NO_DATA))))).
Proof.
  apply (parseEntry_no_marker
           {| CsvRecord.id := str "7"; CsvRecord.headword := str "a:b";
              CsvRecord.entry := NO_DATA; CsvRecord.variants := [];
              CsvRecord.warning := []; CsvRecord.public := [] |}
           (Number.Int 7)
           [ {| Headword.text := str "a"; Headword.readings := [str "b"] |} ]);
    reflexivity.
Defined.

Lemma parseCSVEntriesStep_entries st entry :
  dictionaryEntries (parseCSVEntriesStep st entry)
  = dictionaryEntries st ++ from_option (λ e, [e]) [] (entryOfRow entry).
Proof.
  unfold parseCSVEntriesStep, entryOfRow.
  destruct (eqStr _ NO_DATA); [by rewrite app_nil_r|].
  destruct (parseEntry entry); cbn; [done | by rewrite app_nil_r].
Qed.

Lemma foldl_parseCSVEntriesStep_entries data : ∀ st,
  dictionaryEntries (foldl parseCSVEntriesStep st data)
  = dictionaryEntries st ++ omap entryOfRow data.
Proof.
  induction data as [|entry data IH]; intros st; [by rewrite app_nil_r|].
  cbn [foldl omap list_omap]. rewrite IH, parseCSVEntriesStep_entries.
  rewrite <- app_assoc. f_equal. by destruct (entryOfRow entry).
Qed.

(** X25: the batch loop returns, in the order of the rows, the entries of
    the rows that have data and on which [parseEntry] does not throw; a
    row that throws, whatever the exception, changes nothing for the rows
    around it. *)
Theorem parseCSVEntries_omap data :
  parseCSVEntries data = omap entryOfRow data.
Proof.
  unfold parseCSVEntries, parseCSVEntriesLoop.
  by rewrite foldl_parseCSVEntriesStep_entries.
Qed.



(** *** Senses and their blocks *)

Lemma split_char_pieces c (s : jsstring) : Forall (λ x, c ∉ x) (split [c] s).
Proof.
  induction s as [|x s IH]; [repeat constructor; apply not_elem_of_nil|].
  rewrite split_char_cons. rewrite (split_char_hd_tl c s) in IH |- *.
  inversion_clear IH as [|? ? Hh Ht]. cbn [hd tl].
  destruct (N.eqb_spec c x) as [->|Hne].
  - constructor; [apply not_elem_of_nil | by constructor].
  - constructor; [|done]. by apply not_elem_of_cons.
Qed.

Lemma parseSense_Ok_parts block sense :
  parseSense block = Ok sense →
  ∃ explanationText exampleTexts,
    splitFullLine (str "<eg>") (replaceFirst (str "<explanation>" ++ LF) block)
    = explanationText :: exampleTexts
    ∧ parseLanguageData explanationText = Ok (Sense.explanation sense)
    ∧ mapResult parseLanguageData exampleTexts = Ok (Sense.egs sense).
Proof.
  unfold parseSense. intros H.
  destruct (splitFullLine (str "<eg>") _) as [|expl egs]; [done|].
  destruct (parseLanguageData expl) as [explanation|] eqn:Hexpl; [|done].
  cbn [mbind result_bind] in H.
  destruct (mapResult parseLanguageData egs) as [examples|] eqn:Hegs; [|done].
  cbn [mbind result_bind] in H. injection H as <-. by exists expl, egs.
Qed.

Lemma parseSense_senseOfBlock block sense :
  parseSense block = Ok sense → senseOfBlock block sense.
Proof.
  intros H.
  destruct (parseSense_Ok_parts _ _ H) as (expl & egs & Hsplit & Hexpl & Hegs).
  exists expl, egs. rewrite <- Hsplit. split_and!.
  - by apply join_splitFullLine.
  - apply splitFullLine_no_line; [done | by repeat constructor].
  - done.
  - by apply mapResult_Forall2.
Qed.

(** C8: when [parseEntry] succeeds, the body after the tag line is cut
    into blocks at its lines that are exactly ["----"]: the blocks with
    such a line between each two are the body, no block has such a line
    itself, and so there is one block more than there are such lines.
    There is one sense per block, in order, two for a body with one
    delimiter line; and each sense is made of its own block and of nothing
    else: its explanation and its examples are read from the texts between
    the lines ["<eg>"] of that block. *)
Theorem parseEntry_senses entry e :
  parseEntry entry = Ok e →
  let body := join LF (tail (split LF (CsvRecord.entry entry))) in
  (∃ line0 : jsstring,
     (0x0A ∉ line0)
     ∧ (CsvRecord.entry entry = line0 ∧ body = []
        ∨ CsvRecord.entry entry = line0 ++ LF ++ body))
  ∧ ∃ blocks,
      join (str "----") blocks = body
      ∧ Forall (λ block, countLines (str "----") block = 0%nat) blocks
      ∧ length blocks = S (countLines (str "----") body)
      ∧ (countLines (str "----") body = 1%nat →
         length (DictionaryEntry.senses e) = 2%nat)
      ∧ Forall2
          (λ block sense,
             parseSense block = Ok sense ∧ senseOfBlock block sense)
          blocks (DictionaryEntry.senses e).
Proof.
  intros He body. split.
  - subst body. unfold LF.
    pose proof (join_split_char 0x0A (CsvRecord.entry entry)) as Hjoin.
    pose proof (split_char_pieces 0x0A (CsvRecord.entry entry)) as Hpieces.
    rewrite (split_char_hd_tl 0x0A (CsvRecord.entry entry)) in Hjoin, Hpieces
      |- *.
    inversion_clear Hpieces as [|? ? Hline0 _]. cbn [tail].
    eexists. split; [exact Hline0|].
    destruct (tl (split [0x0A] (CsvRecord.entry entry))) as [|l ls] eqn:Htl.
    + left. by split.
    + right. by rewrite join_cons_pieces in Hjoin.
  - apply parseEntry_Ok in He as [_ Hsenses]. fold body in Hsenses.
    apply mapResult_Forall2 in Hsenses.
    exists (splitFullLine (str "----") body).
    assert (length (splitFullLine (str "----") body)
            = S (countLines (str "----") body)) as Hlen
      by (apply splitFullLine_length; [done | by repeat constructor]).
    split_and!.
    + by apply join_splitFullLine.
    + apply splitFullLine_no_line; [done | by repeat constructor].
    + done.
    + intros H1. by rewrite <- (Forall2_length _ _ _ Hsenses), Hlen, H1.
    + eapply Forall2_impl; [exact Hsenses|].
      intros block sense Hsense. split; [done|].
      by apply parseSense_senseOfBlock.
Qed.

Lemma parseEntry_senses_witness :
  ∃ blocks,
    join (str "----") blocks
    = join LF (tail (split LF (CsvRecord.entry (sampleRow (str "42")))))
    ∧ Forall (λ block, countLines (str "----") block = 0%nat) blocks
    ∧ length blocks = 2%nat
    ∧ Forall2
        (λ block sense,
           parseSense block = Ok sense ∧ senseOfBlock block sense)
        blocks (DictionaryEntry.senses (sampleEntry 42)).
Proof.
  destruct (parseEntry_senses (sampleRow (str "42")) (sampleEntry 42))
    as (_ & blocks & Hjoin & Hno & Hlen & _ & Hall).
  - vm_compute. reflexivity.
  - exists blocks. split_and!; [exact Hjoin | exact Hno | | exact Hall].
    rewrite Hlen. vm_compute. reflexivity.
Defined.

End EntriesMore.
